(** * Windows authentication plugin, client side: common.h

    A shallow embedding of the classes declared in
    libmysql/authentication_win/common.h (Blob, Connection, Sid, UPN)
    and of the handshake session that the plugin runs on top of them.

    Conventions
    - unsigned machine integers ([size_t], [unsigned], pointers, handles)
      are [N]; signed ones ([int], enum values) are [Z];
    - a pointer is an address, [NULL] is address 0;
    - byte memory is a finite map from addresses to bytes, and a load
      from an unmapped address has no defined result ([None]);
    - a member function that does not modify its object is a function of
      the object; one that does returns the new object with its result. *)

From Stdlib Require Import String Ascii.
From stdpp Require Import base option list gmap.
From Stdlib Require Import ZArith NArith Lia Bool.

Local Open Scope N_scope.

(** ** Machine-level vocabulary *)

Definition NULL : N := 0.

(** Value of an argument after conversion to the 32-bit [unsigned]. *)
Definition to_unsigned (n : N) : N := n mod 2 ^ 32.

(** Byte memory: address |-> byte. *)
Abbreviation memory := (gmap N N).

(** The C library's [strlen]: the number of bytes before the first zero
    byte, scanning byte memory upwards from [p].  A scan that leaves the
    mapped memory has no defined result.  Byte memory is finite and the
    scan visits each address once, so it meets at most [size mem] bytes:
    that bounds the scan. *)
Fixpoint strlen_from (mem : memory) (p : N) (fuel : nat) : option N :=
  match fuel with
  | O => None
  | S fuel' =>
      match mem !! p with
      | None => None
      | Some c =>
          if c =? 0 then Some 0
          else
            match strlen_from mem (p + 1) fuel' with
            | Some n => Some (N.succ n)
            | None => None
            end
      end
  end.

Definition strlen (mem : memory) (p : N) : option N :=
  strlen_from mem p (S (size mem)).

(** Memory holds at [p] the null-terminated string of characters [cs]:
    the characters, none of them zero, then a zero byte. *)
Definition holds_string (mem : memory) (p : N) (cs : list N) : Prop :=
  (forall (i : nat) (x : N),
     cs !! i = Some x -> mem !! (p + N.of_nat i) = Some x /\ x <> 0) /\
  mem !! (p + N.of_nat (length cs)) = Some 0.

(** ** Blob: a region of memory *)

Module Blob.

Record t : Type := mk {
  m_ptr : N;   (* pointer to the first byte of the region *)
  m_len : N    (* length of the region *)
}.

(** [Blob(): m_ptr(NULL), m_len(0)] *)
Definition default : t := mk NULL 0.

(** [Blob(const byte *ptr, const size_t len)] *)
Definition of_region (p : N) (len : N) : t := mk p len.

(** [Blob(const char *str): m_ptr((byte* )str) { m_len= strlen(str); }] *)
Definition of_string (mem : memory) (str : N) : option t :=
  match strlen mem str with
  | Some n => Some (mk str n)
  | None => None
  end.

Definition ptr (b : t) : N := m_ptr b.

Definition len (b : t) : N := m_len b.

(** [byte operator[](unsigned pos) const
      { return pos < len() ? m_ptr[pos] : 0x00; }]
    The load [m_ptr[pos]] reads byte memory at address [m_ptr + pos]. *)
Definition index (mem : memory) (b : t) (pos : N) : option N :=
  let pos := to_unsigned pos in
  if pos <? len b then mem !! (m_ptr b + pos) else Some 0.

(** [bool is_null() const { return m_ptr == NULL; }] *)
Definition is_null (b : t) : bool := m_ptr b =? NULL.

(** The blob [b] describes a region of [mem] that holds the bytes [bs]:
    the contract stated in the class comment (the region is allocated
    externally). *)
Definition views (mem : memory) (b : t) (bs : list N) : Prop :=
  m_len b = N.of_nat (length bs) /\
  forall (i : nat) (x : N),
    bs !! i = Some x -> mem !! (m_ptr b + N.of_nat i) = Some x.

End Blob.

(** ** UPN: user principal name of the current process *)

Module UPN.

Record t : Type := mk {
  m_buf : N;   (* pointer to the name in utf8 representation *)
  m_len : N    (* length of the name *)
}.

(** [bool is_valid() const { return m_len > 0; }] *)
Definition is_valid (u : t) : bool := 0 <? m_len u.

(** [const Blob as_blob() const
      { return m_len ? Blob((byte* )m_buf, m_len) : Blob(); }] *)
Definition as_blob (u : t) : Blob.t :=
  if negb (m_len u =? 0) then Blob.of_region (m_buf u) (m_len u)
  else Blob.default.

(** [const char* as_string() const { return (const char* )m_buf; }] *)
Definition as_string (u : t) : N := m_buf u.

(** Modelled from the spec: the constructor [UPN::UPN()] is declared in
    common.h and defined outside it.  The spec has it query the platform
    for the principal name of the process once, convert it to UTF-8 and
    store it, zero length meaning that no principal is available.
    [resolved] is the outcome of that query and conversion: the utf8
    buffer and its length, or [None] when the platform resolves no
    name. *)
Definition ctor (resolved : option (N * N)) : t :=
  match resolved with
  | Some (buf, n) => mk buf n
  | None => mk NULL 0
  end.

End UPN.

(** ** Sid: Windows security identifiers *)

(** Modelled from the spec: the platform types [SID_NAME_USE], [SID],
    [SID_AND_ATTRIBUTES] and [TOKEN_USER] come from the Windows headers
    that common.h includes, not from this repository.  The entity type is
    the enumeration's integer value, so that a stored type outside the
    enumeration is representable; a [SID] is the opaque identity blob of
    the spec (revision, authority, sub-authorities, as in S-1-5-21-...);
    a [PSID] points into the buffer that owns the identifier and is
    represented by the identifier it points to. *)
Definition SidTypeUser : Z := 1.
Definition SidTypeGroup : Z := 2.
Definition SidTypeDomain : Z := 3.
Definition SidTypeAlias : Z := 4.
Definition SidTypeWellKnownGroup : Z := 5.
Definition SidTypeDeletedAccount : Z := 6.
Definition SidTypeInvalid : Z := 7.
Definition SidTypeUnknown : Z := 8.
Definition SidTypeComputer : Z := 9.
Definition SidTypeLabel : Z := 10.

Record SID : Type := mkSID {
  Revision : N;
  IdentifierAuthority : N;
  SubAuthority : list N
}.

#[global] Instance SID_eq_dec : EqDecision SID.
Proof. solve_decision. Defined.

Definition PSID : Type := SID.

Record SID_AND_ATTRIBUTES : Type := mkSID_AND_ATTRIBUTES {
  Sid : PSID;
  Attributes : N
}.

Record TOKEN_USER : Type := mkTOKEN_USER {
  User : SID_AND_ATTRIBUTES
}.

(** Modelled from the spec: [EqualSid] is the platform's comparison of
    two identifiers, which the spec calls platform-level identity-blob
    equality. *)
Definition EqualSid (a b : PSID) : bool := bool_decide (a = b).

Module Sid.

(** [m_data] is [NULL] ([None]) or points to the structure the object
    owns; [m_type] is the type of the identified entity. *)
Record t : Type := mk {
  m_data : option TOKEN_USER;
  m_type : Z
}.

(** [bool is_group(void) const
      { return m_type == SidTypeGroup
               || m_type == SidTypeWellKnownGroup
               || m_type == SidTypeAlias; }] *)
Definition is_group (s : t) : bool :=
  (m_type s =? SidTypeGroup)%Z
  || (m_type s =? SidTypeWellKnownGroup)%Z
  || (m_type s =? SidTypeAlias)%Z.

(** [bool is_user(void) const { return m_type == SidTypeUser; }] *)
Definition is_user (s : t) : bool := (m_type s =? SidTypeUser)%Z.

(** [operator PSID() const { return (PSID)m_data->User.Sid; }]
    The member access through [m_data] has a result only when [m_data]
    points to a structure. *)
Definition to_PSID (s : t) : option PSID :=
  match m_data s with
  | Some data => Some (Sid (User data))
  | None => None
  end.

(** Modelled from the spec: [Sid::is_valid] is declared in common.h and
    defined outside it.  The spec: true only if resolution succeeded;
    a failed resolution leaves the object without identifier data. *)
Definition is_valid (s : t) : bool :=
  match m_data s with
  | Some _ => true
  | None => false
  end.

(** Modelled from the spec: [Sid::operator==] is declared in common.h and
    defined outside it.  The spec: equality is defined only between two
    valid identities, where it is platform-level identity-blob equality;
    comparing with an invalid identity is always false. *)
Definition eq (a b : t) : bool :=
  if negb (is_valid a) || negb (is_valid b) then false
  else
    match m_data a, m_data b with
    | Some da, Some db => EqualSid (Sid (User da)) (Sid (User db))
    | _, _ => false
    end.

(** Modelled from the spec: the two outcomes of the constructors, which
    are defined outside common.h.  A failed resolution leaves an object
    without identifier data whose entity classification is unknown; a
    successful one stores the identifier and its classification. *)
Definition unresolved : t := mk None SidTypeUnknown.

Definition resolved (r : SID * Z) : t :=
  mk (Some (mkTOKEN_USER (mkSID_AND_ATTRIBUTES (fst r) 0))) (snd r).

Section Platform.

(** The platform identity store: the identifier and entity type of a
    named account, and those bound to an access token, when it resolves
    them. *)
Variable LookupAccountName : list N -> option (SID * Z).
Variable GetTokenUser : N -> option (SID * Z).

(** Modelled from the spec: the constructor [Sid(const wchar_t* )] is
    declared in common.h and defined outside it.  The spec: resolves the
    platform identity for the account name; from an empty or unresolved
    name the instance is marked invalid, and every later query reports
    invalid or false. *)
Definition of_account_name (name : list N) : t :=
  match name with
  | [] => unresolved
  | _ :: _ =>
      match LookupAccountName name with
      | Some r => resolved r
      | None => unresolved
      end
  end.

(** Modelled from the spec: the constructor [Sid(HANDLE sec_token)] is
    declared in common.h and defined outside it.  The spec: resolves the
    identity and entity classification of the token, with the same
    invalid-on-failure policy for a null or invalid handle. *)
Definition of_token (sec_token : N) : t :=
  if sec_token =? NULL then unresolved
  else
    match GetTokenUser sec_token with
    | Some r => resolved r
    | None => unresolved
    end.

End Platform.

End Sid.

(** ** Connection: read and write over the plugin's transport *)

(** Modelled from the spec: the transport ([MYSQL_PLUGIN_VIO]) is an
    external collaborator, known to the spec as a channel supplying raw
    writes and reads and signalling failure.  It is simulated by a
    script: [incoming] holds the outcomes of the coming reads (buffer and
    length, a negative length for a failed read), [outcomes] the result
    codes of the coming writes (zero for success); an exhausted script
    fails.  [io] lists, oldest first, every call made on the transport. *)
Module Vio.

Inductive event : Type :=
  | Written (b : Blob.t)
  | Received.

Record t : Type := mk {
  incoming : list (N * Z);
  outcomes : list Z;
  io : list event
}.

Definition read_packet (v : t) : t * (N * Z) :=
  match incoming v with
  | [] => (mk [] (outcomes v) (io v ++ [Received]), (NULL, (-1)%Z))
  | r :: rest => (mk rest (outcomes v) (io v ++ [Received]), r)
  end.

Definition write_packet (v : t) (p len : N) : t * Z :=
  let log := io v ++ [Written (Blob.of_region p len)] in
  match outcomes v with
  | [] => (mk (incoming v) [] log, 1%Z)
  | rc :: rest => (mk (incoming v) rest log, rc)
  end.

Definition is_read (e : event) : bool :=
  match e with
  | Received => true
  | Written _ => false
  end.

(** Number of reads made on the transport so far. *)
Definition reads (v : t) : nat := length (List.filter is_read (io v)).

(** Number of writes made on the transport so far. *)
Definition writes (v : t) : nat :=
  length (List.filter (fun e => negb (is_read e)) (io v)).

End Vio.

Module Connection.

(** [m_vio] is the transport; [m_error], if non-zero, indicates that the
    connection is broken and stores the error code of the failure. *)
Record t : Type := mk {
  m_vio : Vio.t;
  m_error : Z
}.

(** [int error() const { return m_error; }] *)
Definition error (c : t) : Z := m_error c.

(** Modelled from the spec: [Connection::Connection] is declared in
    common.h and defined outside it.  The spec: created bound to one
    transport, error code zero (healthy). *)
Definition ctor (vio : Vio.t) : t := mk vio 0.

(** Modelled from the spec: [Connection::write] is declared in common.h
    and defined outside it.  The spec: sends the bytes of the view over
    the transport and returns success or failure; on failure records a
    nonzero sticky error, and every later call fails fast without
    touching the transport again. *)
Definition write (c : t) (b : Blob.t) : t * Z :=
  if negb (m_error c =? 0)%Z then (c, m_error c)
  else
    let '(vio, rc) := Vio.write_packet (m_vio c) (Blob.ptr b) (Blob.len b) in
    (mk vio rc, rc).

(** Modelled from the spec: [Connection::read] is declared in common.h
    and defined outside it.  The spec: returns a view over the received
    message; on transport failure returns an empty/null view and sets
    the sticky error. *)
Definition read (c : t) : t * Blob.t :=
  if negb (m_error c =? 0)%Z then (c, Blob.default)
  else
    let '(vio, (buf, n)) := Vio.read_packet (m_vio c) in
    if (n <? 0)%Z then (mk vio 1, Blob.default)
    else (mk vio 0, Blob.of_region buf (Z.to_N n)).

(** The operations of a connection, their results, and a sequence of
    calls on one connection. *)
Inductive op : Type :=
  | Write (b : Blob.t)
  | Read.

Inductive result : Type :=
  | Wrote (rc : Z)
  | Got (b : Blob.t).

Definition exec (c : t) (o : op) : t * result :=
  match o with
  | Write b => let '(c', rc) := write c b in (c', Wrote rc)
  | Read => let '(c', b) := read c in (c', Got b)
  end.

Definition failed (r : result) : bool :=
  match r with
  | Wrote rc => negb (rc =? 0)%Z
  | Got b => Blob.is_null b
  end.

Fixpoint run (c : t) (ops : list op) : t * list result :=
  match ops with
  | [] => (c, [])
  | o :: rest =>
      let '(c', r) := exec c o in
      let '(c'', rs) := run c' rest in
      (c'', r :: rs)
  end.

End Connection.

(** ** Handshake: the session state machine *)

(** Modelled from the spec: the handshake engine is not declared in
    common.h; the model follows the spec's section on the Handshake
    Engine, its states and its three transition rules.  The negotiation
    primitive and the identity store are the external collaborators of
    the spec's interfaces section and are parameters here. *)
Module Handshake.

Inductive negotiation_state : Type :=
  | NotStarted
  | InProgress
  | Completed
  | Failed.

(** What the negotiation primitive reports with each outbound token. *)
Inductive status : Type :=
  | Continue
  | Done
  | FatalError.

Definition terminal (st : negotiation_state) : bool :=
  match st with
  | Completed | Failed => true
  | NotStarted | InProgress => false
  end.

(** A token to send: the spec treats an empty or zero-length token as
    nothing further to send. *)
Definition has_token (b : Blob.t) : bool :=
  negb (Blob.is_null b) && (0 <? Blob.len b).

Section Engine.

(** The security context of the negotiation primitive. *)
Variable PS : Type.

(** Given the target identity and optionally an inbound token, the
    primitive returns an outbound token (possibly empty) and a status. *)
Variable negotiate : PS -> Blob.t -> option Blob.t -> PS * (Blob.t * status).

(** Once done, the primitive yields the negotiated peer's identity
    handle. *)
Variable peer_token : PS -> N.

(** The identity store behind [Sid(HANDLE)]. *)
Variable GetTokenUser : N -> option (SID * Z).

(** The local principal and the target identity of the session. *)
Variable upn : UPN.t.
Variable target : Blob.t.

(** The session: negotiation state, the connection it owns, the expected
    server identity, the resolved peer identity once negotiation has
    completed, the security context, the status last reported by the
    primitive and the number of exchanges made. *)
Record session : Type := mk {
  state : negotiation_state;
  con : Connection.t;
  expected : Sid.t;
  peer : option Sid.t;
  context : PS;
  reported : option status;
  rounds : nat
}.

Definition start (vio : Vio.t) (expect : Sid.t) (ctx : PS) : session :=
  mk NotStarted (Connection.ctor vio) expect None ctx None 0.

Definition fail (s : session) (c : Connection.t) : session :=
  mk Failed c (expected s) (peer s) (context s) (reported s) (rounds s).

(** Rule 1, NotStarted -> InProgress: send the local principal as the
    first outbound message, then present it with the target identity to
    the primitive, which produces the first outbound token and a status.
    That token is locally produced, and the engine feeds such tokens to
    the channel: it is written unless it is empty, like the tokens of
    rule 2 (c).  A failed write leaves the session to rule 2 (e). *)
Definition begin (s : session) : session :=
  let '(c, rc) := Connection.write (con s) (UPN.as_blob upn) in
  if negb (rc =? 0)%Z then
    mk InProgress c (expected s) (peer s) (context s) (reported s) (rounds s)
  else
    let '(ctx, (outbound, st)) := negotiate (context s) target None in
    let c2 := if has_token outbound then fst (Connection.write c outbound) else c in
    mk InProgress c2 (expected s) (peer s) ctx (Some st) (rounds s).

(** Rule 2 (a)-(c), one exchange: read the next inbound token, feed it to
    the primitive, write the outbound token if one was produced. *)
Definition exchange (s : session) : session :=
  let '(c1, inbound) := Connection.read (con s) in
  if negb (Connection.error c1 =? 0)%Z then fail s c1
  else
    let '(ctx, (outbound, st)) := negotiate (context s) target (Some inbound) in
    let c2 := if has_token outbound then fst (Connection.write c1 outbound) else c1 in
    mk InProgress c2 (expected s) (peer s) ctx (Some st) (S (rounds s)).

(** Rule 3, on completion: resolve the identity bound to the negotiated
    context and compare it with the expected identity.  Equal gives
    Completed; unequal or unresolved gives Failed. *)
Definition verify (s : session) : session :=
  let p := Sid.of_token GetTokenUser (peer_token (context s)) in
  mk (if Sid.eq p (expected s) then Completed else Failed)
     (con s) (expected s) (Some p) (context s) (reported s) (rounds s).

(** Rule 2 (d)-(e): a nonzero channel error or a fatal negotiation error
    is fatal; completion proceeds to rule 3; otherwise exchange again. *)
Definition progress (s : session) : session :=
  if negb (Connection.error (con s) =? 0)%Z then fail s (con s)
  else
    match reported s with
    | Some Done => verify s
    | Some Continue => exchange s
    | Some FatalError | None => fail s (con s)
    end.

(** One transition of the session; the terminal states have none. *)
Definition step (s : session) : session :=
  match state s with
  | NotStarted => begin s
  | InProgress => progress s
  | Completed | Failed => s
  end.

Fixpoint run (fuel : nat) (s : session) : session :=
  match fuel with
  | O => s
  | S n => run n (step s)
  end.

(** The conversation of the primitive with a peer whose tokens are the
    packets [incoming] of the transport: the replies of the primitive to
    the first [n] of them, in order, and its context afterwards. *)
Fixpoint replies_to (n : nat) (ctx : PS) (incoming : list (N * Z))
  : list (Blob.t * status) * PS :=
  match n, incoming with
  | S n', (buf, len) :: more =>
      let '(ctx', reply) :=
        negotiate ctx target (Some (Blob.of_region buf (Z.to_N len))) in
      let '(replies, last) := replies_to n' ctx' more in
      (reply :: replies, last)
  | _, _ => ([], ctx)
  end.

(** The whole conversation: the reply to the presentation of rule 1, then
    the replies to [k] inbound tokens. *)
Definition conversation (k : nat) (ctx : PS) (incoming : list (N * Z))
  : list (Blob.t * status) * PS :=
  let '(ctx', reply) := negotiate ctx target None in
  let '(replies, last) := replies_to k ctx' incoming in
  (reply :: replies, last).

(** The primitive reports "continue" exactly [k] times and then "done"
    in its conversation with the peer behind the transport. *)
Definition continues (k : nat) (ctx : PS) (incoming : list (N * Z)) : Prop :=
  map snd (fst (conversation k ctx incoming)) = replicate k Continue ++ [Done].

(** What the channel sees of an outbound token: a write, unless the
    token is empty. *)
Definition sent (outbound : Blob.t) : list Vio.event :=
  if has_token outbound then [Vio.Written outbound] else [].

(** What the channel sees of one exchange: the read of the inbound token,
    then the outbound token. *)
Definition exchanged (reply : Blob.t * status) : list Vio.event :=
  Vio.Received :: sent (fst reply).

(** What the channel sees of a conversation after the principal name:
    the first outbound token, then one exchange for each later reply. *)
Definition transcript (replies : list (Blob.t * status)) : list Vio.event :=
  match replies with
  | [] => []
  | first :: later => sent (fst first) ++ concat (map exchanged later)
  end.

(** What holds of a session that has reached Completed: the primitive
    reported success, the channel is healthy, and the peer identity was
    resolved and equals the expected one. *)
Definition verified (s : session) : Prop :=
  state s = Completed ->
  reported s = Some Done /\
  Connection.error (con s) = 0%Z /\
  exists p, peer s = Some p /\ Sid.eq p (expected s) = true.

(** The status a session records is one the primitive returned. *)
Definition reported_by_primitive (s : session) : Prop :=
  forall st, reported s = Some st ->
    exists ctx inbound, snd (snd (negotiate ctx target inbound)) = st.

End Engine.

Arguments mk {PS}.
Arguments state {PS}.
Arguments con {PS}.
Arguments expected {PS}.
Arguments peer {PS}.
Arguments context {PS}.
Arguments reported {PS}.
Arguments rounds {PS}.
Arguments start {PS}.
Arguments fail {PS}.
Arguments begin {PS}.
Arguments exchange {PS}.
Arguments verify {PS}.
Arguments progress {PS}.
Arguments step {PS}.
Arguments run {PS}.
Arguments replies_to {PS}.
Arguments conversation {PS}.
Arguments continues {PS}.
Arguments verified {PS}.
Arguments reported_by_primitive {PS}.

(** A simulated primitive: its context is the script of the replies still
    to give and the handle of the peer it has negotiated with. *)
Definition scripted : Type := list (Blob.t * status) * N.

Definition scripted_negotiate (ctx : scripted) (_ : Blob.t) (_ : option Blob.t)
  : scripted * (Blob.t * status) :=
  match fst ctx with
  | [] => (ctx, (Blob.default, FatalError))
  | reply :: rest => ((rest, snd ctx), reply)
  end.

Definition scripted_peer (ctx : scripted) : N := snd ctx.

End Handshake.

(** A transport whose next [r] reads and [w] writes succeed. *)
Definition transport_ok (r w : nat) (v : Vio.t) : Prop :=
  (r <= length (Vio.incoming v))%nat /\
  (w <= length (Vio.outcomes v))%nat /\
  Forall (fun p => (0 <= snd p)%Z) (take r (Vio.incoming v)) /\
  Forall (fun rc => rc = 0%Z) (take w (Vio.outcomes v)).

(** ** A simulated login *)

(** The spec's end-to-end scenarios: the client principal is
    alice@EXAMPLE.COM (17 bytes of UTF-8), the expected server identity
    is the account S-1-5-21-7-8-9-1001, and the primitive asks to
    continue twice before it is done. *)
Module Scenario.

Definition server : SID := mkSID 1 5 [21; 7; 8; 9; 1001].
Definition impostor : SID := mkSID 1 5 [21; 7; 8; 9; 1002].

(** The token store: handle 77 is the server's token, 78 the
    impostor's; no other handle resolves. *)
Definition token_store (h : N) : option (SID * Z) :=
  if h =? 77 then Some (server, SidTypeUser)
  else if h =? 78 then Some (impostor, SidTypeUser)
  else None.

Definition upn : UPN.t := UPN.mk 1000 17.
Definition target : Blob.t := Blob.of_region 2000 5.
Definition expected : Sid.t := Sid.resolved (server, SidTypeUser).

Definition vio : Vio.t :=
  Vio.mk [(3000, 8%Z); (3100, 4%Z)] [0%Z; 0%Z; 0%Z; 0%Z] [].

Definition replies : list (Blob.t * Handshake.status) :=
  [(Blob.of_region 4000 12, Handshake.Continue);
   (Blob.of_region 4100 6, Handshake.Continue);
   (Blob.default, Handshake.Done)].

Definition login (peer_handle : N) (fuel : nat) : Handshake.session Handshake.scripted :=
  Handshake.run Handshake.scripted_negotiate Handshake.scripted_peer
    token_store upn target fuel
    (Handshake.start vio expected (replies, peer_handle)).

(** A primitive that is done at once, with a final token of 12 bytes to
    send. *)
Definition at_once : list (Blob.t * Handshake.status) :=
  [(Blob.of_region 4000 12, Handshake.Done)].

Definition login_at_once (fuel : nat) : Handshake.session Handshake.scripted :=
  Handshake.run Handshake.scripted_negotiate Handshake.scripted_peer
    token_store upn target fuel
    (Handshake.start vio expected (at_once, 77)).

End Scenario.

(** ** Debug output *)

(** [stderr] is the text written to it so far.  The C library's rendering
    of a format string with its arguments, as [vfprintf] writes it, is the
    parameter [vformat]; buffering is not modelled, so [fflush] changes
    nothing. *)
Module Debug.

Definition newline : string := String (ascii_of_nat 10) EmptyString.

(** Number of newline characters of a text. *)
Fixpoint lines (t : string) : nat :=
  match t with
  | EmptyString => 0
  | String c rest => ((if Ascii.eqb c (ascii_of_nat 10) then 1 else 0) + lines rest)%nat
  end.

Section Format.

Variable Args : Type.
Variable vformat : string -> Args -> string.

(** [inline void debug_msg(const char *fmt, ...)
      { va_list args; va_start(args, fmt);
        vfprintf(stderr, fmt, args); fputc('\n', stderr); fflush(stderr);
        va_end(args); }] *)
Definition debug_msg (fmt : string) (args : Args) (stderr : string) : string :=
  String.append (String.append stderr (vformat fmt args)) newline.

(** [#define DBUG_PRINT_DO(Keyword, Msg)
      do { if (2 > opt_auth_win_client_log) break;
           fprintf(stderr, "winauth: %s: ", Keyword);
           debug_msg Msg; } while (0)]
    and, when [DBUG_OFF] is defined, [do {} while (0)]. *)
Definition DBUG_PRINT_DO (DBUG_OFF : bool) (opt_auth_win_client_log : Z)
    (Keyword fmt : string) (args : Args) (stderr : string) : string :=
  if DBUG_OFF then stderr
  else if (2 >? opt_auth_win_client_log)%Z then stderr
  else
    debug_msg fmt args
      (String.append stderr
         (String.append "winauth: " (String.append Keyword ": "))).

(** [#define DBUG_PRINT(Keyword, Msg)  DBUG_PRINT_DO(Keyword, Msg)] *)
Definition DBUG_PRINT := DBUG_PRINT_DO.

(** A run of debug prints, each a keyword, a format and its arguments. *)
Fixpoint prints (DBUG_OFF : bool) (opt_auth_win_client_log : Z)
    (ps : list (string * string * Args)) (stderr : string) : string :=
  match ps with
  | [] => stderr
  | (Keyword, fmt, args) :: rest =>
      prints DBUG_OFF opt_auth_win_client_log rest
        (DBUG_PRINT DBUG_OFF opt_auth_win_client_log Keyword fmt args stderr)
  end.

(** The line one print writes. *)
Definition record (p : string * string * Args) : string :=
  String.append "winauth: "
    (String.append (fst (fst p))
       (String.append ": " (String.append (vformat (snd (fst p)) (snd p)) newline))).

End Format.

End Debug.

(** * Properties *)

(** ** Blob *)

Section BlobProperties.

Implicit Types (mem : memory) (b : Blob.t) (pos : N) (bs : list N).

Lemma to_unsigned_small pos : pos < 2 ^ 32 -> to_unsigned pos = pos.
Proof. intros H. unfold to_unsigned. now apply N.mod_small. Qed.

(** Past the end nothing is loaded: the result is the zero byte whatever
    the memory holds, also for a null or dangling base pointer. *)
Lemma Blob_index_past_end mem b pos :
  pos < 2 ^ 32 -> Blob.len b <= pos -> Blob.index mem b pos = Some 0.
Proof.
  intros Hu Hge. unfold Blob.index. rewrite to_unsigned_small by exact Hu.
  destruct (N.ltb_spec pos (Blob.len b)) as [Hlt | _]; [lia | reflexivity].
Qed.

(** Within the length the result is the load at offset [pos]. *)
Lemma Blob_index_in_range mem b pos :
  pos < 2 ^ 32 -> pos < Blob.len b ->
  Blob.index mem b pos = mem !! (Blob.ptr b + pos).
Proof.
  intros Hu Hlt. unfold Blob.index. rewrite to_unsigned_small by exact Hu.
  destruct (N.ltb_spec pos (Blob.len b)) as [_ | Hge]; [reflexivity | lia].
Qed.

(** On a blob that describes a region holding [bs], indexing is the
    list's [nth] with default zero. *)
Lemma Blob_index_views mem b bs pos :
  Blob.views mem b bs -> pos < 2 ^ 32 ->
  Blob.index mem b pos = Some (nth (N.to_nat pos) bs 0).
Proof.
  intros [Hlen Hbytes] Hu.
  destruct (N.lt_ge_cases pos (Blob.len b)) as [Hlt | Hge].
  - rewrite Blob_index_in_range by assumption.
    unfold Blob.len in Hlt. rewrite Hlen in Hlt.
    destruct (lookup_lt_is_Some_2 bs (N.to_nat pos)) as [x Hx]; [lia |].
    rewrite (nth_lookup_Some _ _ _ _ Hx).
    specialize (Hbytes _ _ Hx). rewrite N2Nat.id in Hbytes. exact Hbytes.
  - rewrite Blob_index_past_end by assumption.
    unfold Blob.len in Hge. rewrite Hlen in Hge.
    rewrite nth_overflow by lia. reflexivity.
Qed.

(** C5: positional access is total with a zero sentinel.  For every blob
    and every index of type [unsigned]: below the length the result is
    the byte stored at that offset of the region, at or past the length
    it is 0x00 without any load, and on every blob that describes a
    region of memory the access has a result at every index. *)
Theorem Blob_index_total_zero_sentinel mem b pos :
  pos < 2 ^ 32 ->
  (pos < Blob.len b -> Blob.index mem b pos = mem !! (Blob.ptr b + pos)) /\
  (Blob.len b <= pos -> Blob.index mem b pos = Some 0) /\
  (forall bs, Blob.views mem b bs ->
     Blob.index mem b pos = Some (nth (N.to_nat pos) bs 0) /\
     (pos < Blob.len b -> bs !! N.to_nat pos = Blob.index mem b pos)).
Proof.
  intros Hu. split; [| split].
  - intros Hlt. now apply Blob_index_in_range.
  - intros Hge. now apply Blob_index_past_end.
  - intros bs Hv. split; [now apply Blob_index_views |].
    intros Hlt. rewrite (Blob_index_views mem b bs pos Hv Hu).
    destruct Hv as [Hlen _]. unfold Blob.len in Hlt. rewrite Hlen in Hlt.
    destruct (lookup_lt_is_Some_2 bs (N.to_nat pos)) as [x Hx]; [lia |].
    rewrite (nth_lookup_Some _ _ _ _ Hx). exact Hx.
Qed.

(** A two-byte region at address 100, read at its last byte. *)
Lemma Blob_index_total_zero_sentinel_witness :
  Blob.index (<[100 := 65]> (<[101 := 66]> ∅)) (Blob.of_region 100 2) 1
  = Some 66
  /\ Blob.index (<[100 := 65]> (<[101 := 66]> ∅)) (Blob.of_region 100 2) 2
  = Some 0.
Proof.
  split.
  - rewrite (proj1 (Blob_index_total_zero_sentinel
                      (<[100 := 65]> (<[101 := 66]> ∅)) (Blob.of_region 100 2) 1
                      eq_refl) eq_refl).
    reflexivity.
  - apply (proj1 (proj2 (Blob_index_total_zero_sentinel
                      (<[100 := 65]> (<[101 := 66]> ∅)) (Blob.of_region 100 2) 2
                      eq_refl))).
    discriminate.
Defined.

(** The constructor accepts a null base with a nonzero length; such a
    blob describes no region, and a read within its length loads from
    the null address. *)
Example Blob_null_base_in_range :
  Blob.index ∅ (Blob.of_region NULL 1) 0 = None.
Proof. reflexivity. Qed.

(** C8: a default-constructed blob has a null base pointer, zero length
    and is null; [is_null] is true exactly when the base pointer is
    NULL, whatever the length, so a blob over a non-null pointer with
    length 0 is not null. *)
Theorem Blob_default_and_is_null :
  Blob.ptr Blob.default = NULL /\
  Blob.len Blob.default = 0 /\
  Blob.is_null Blob.default = true /\
  (forall b, Blob.is_null b = true <-> Blob.ptr b = NULL) /\
  (forall p n n', Blob.is_null (Blob.of_region p n)
                  = Blob.is_null (Blob.of_region p n')) /\
  (forall p, p <> NULL -> Blob.is_null (Blob.of_region p 0) = false).
Proof.
  repeat split; try reflexivity.
  - intros H. unfold Blob.is_null in H. now apply N.eqb_eq in H.
  - intros H. unfold Blob.is_null, Blob.ptr in *. now apply N.eqb_eq.
  - intros p Hp. unfold Blob.is_null. cbn. now apply N.eqb_neq.
Qed.

End BlobProperties.

(** ** UPN *)

Section UPNProperties.

Implicit Types (u : UPN.t).

Lemma UPN_is_valid_iff u : UPN.is_valid u = true <-> UPN.m_len u <> 0.
Proof.
  unfold UPN.is_valid. rewrite N.ltb_lt. lia.
Qed.

Lemma UPN_as_blob_empty u : UPN.m_len u = 0 -> UPN.as_blob u = Blob.default.
Proof. intros H. unfold UPN.as_blob. now rewrite H. Qed.

Lemma UPN_as_blob_named u :
  UPN.m_len u <> 0 -> UPN.as_blob u = Blob.of_region (UPN.m_buf u) (UPN.m_len u).
Proof.
  intros H. unfold UPN.as_blob.
  apply N.eqb_neq in H. now rewrite H.
Qed.

(** The constructor, when the platform resolves no name, stores length
    zero. *)
Lemma UPN_ctor_unresolved :
  UPN.m_len (UPN.ctor None) = 0 /\
  UPN.is_valid (UPN.ctor None) = false /\
  Blob.len (UPN.as_blob (UPN.ctor None)) = 0.
Proof. repeat split. Qed.

(** C6: for every UPN object, [is_valid] is true exactly when the stored
    length is nonzero.  With length zero (no principal name) [is_valid]
    is false and [as_blob] is the default view, of length zero; with a
    nonzero length [as_blob] is the view of that length over the stored
    utf8 buffer. *)
Theorem UPN_valid_iff_nonempty u :
  (UPN.is_valid u = true <-> UPN.m_len u <> 0) /\
  (UPN.m_len u = 0 ->
     UPN.is_valid u = false /\
     UPN.as_blob u = Blob.default /\
     Blob.len (UPN.as_blob u) = 0) /\
  (UPN.m_len u <> 0 ->
     UPN.is_valid u = true /\
     Blob.len (UPN.as_blob u) = UPN.m_len u /\
     Blob.ptr (UPN.as_blob u) = UPN.m_buf u).
Proof.
  split; [apply UPN_is_valid_iff | split].
  - intros Hz. rewrite (UPN_as_blob_empty u Hz). repeat split.
    destruct (UPN.is_valid u) eqn:Hv; [| reflexivity].
    apply UPN_is_valid_iff in Hv. contradiction.
  - intros Hnz. rewrite (UPN_as_blob_named u Hnz).
    repeat split. now apply UPN_is_valid_iff.
Qed.

End UPNProperties.

(** ** Sid *)

Section SidProperties.

Implicit Types (s a b : Sid.t).

Lemma Sid_is_valid_data s : Sid.is_valid s = true <-> Sid.m_data s <> None.
Proof.
  unfold Sid.is_valid. destruct (Sid.m_data s); split; congruence.
Qed.

Lemma EqualSid_refl (p : PSID) : EqualSid p p = true.
Proof. unfold EqualSid. now apply bool_decide_eq_true. Qed.

Lemma Sid_eq_invalid_l a b : Sid.is_valid a = false -> Sid.eq a b = false.
Proof. intros H. unfold Sid.eq. now rewrite H. Qed.

Lemma Sid_eq_invalid_r a b : Sid.is_valid b = false -> Sid.eq a b = false.
Proof.
  intros H. unfold Sid.eq. rewrite H.
  now rewrite orb_true_r.
Qed.

Lemma Sid_eq_valid a b :
  Sid.eq a b = true ->
  Sid.is_valid a = true /\ Sid.is_valid b = true /\ Sid.to_PSID a = Sid.to_PSID b.
Proof.
  unfold Sid.eq, Sid.is_valid, Sid.to_PSID.
  destruct (Sid.m_data a) as [da |], (Sid.m_data b) as [db |]; cbn;
    try discriminate.
  intros H. apply bool_decide_eq_true in H. now rewrite H.
Qed.

(** C1: equality is reflexive on valid identities and conservative on
    invalid ones: a valid Sid equals itself, and whenever at least one
    operand is invalid (both included) the comparison is false. *)
Theorem Sid_eq_reflexive_conservative :
  (forall s, Sid.is_valid s = true -> Sid.eq s s = true) /\
  (forall a b, Sid.is_valid a = false \/ Sid.is_valid b = false ->
               Sid.eq a b = false) /\
  (forall a b, Sid.is_valid a = false -> Sid.is_valid b = false ->
               Sid.eq a b = false).
Proof.
  split; [| split].
  - intros s Hv. unfold Sid.eq. rewrite Hv. cbn.
    unfold Sid.is_valid in Hv.
    destruct (Sid.m_data s) as [d |]; [apply EqualSid_refl | discriminate].
  - intros a b [Ha | Hb]; [now apply Sid_eq_invalid_l | now apply Sid_eq_invalid_r].
  - intros a b Ha _. now apply Sid_eq_invalid_l.
Qed.

(** The two identifiers of the spec's end-to-end scenarios. *)
Example Sid_eq_same_account :
  Sid.eq (Sid.resolved (mkSID 1 5 [21; 7; 8; 9; 1001], SidTypeUser))
         (Sid.resolved (mkSID 1 5 [21; 7; 8; 9; 1001], SidTypeUser)) = true.
Proof. reflexivity. Qed.

Example Sid_eq_other_account :
  Sid.eq (Sid.resolved (mkSID 1 5 [21; 7; 8; 9; 1002], SidTypeUser))
         (Sid.resolved (mkSID 1 5 [21; 7; 8; 9; 1001], SidTypeUser)) = false.
Proof. reflexivity. Qed.

Example Sid_eq_both_invalid : Sid.eq Sid.unresolved Sid.unresolved = false.
Proof. reflexivity. Qed.

Lemma Sid_unresolved_queries :
  Sid.is_valid Sid.unresolved = false /\
  Sid.is_group Sid.unresolved = false /\
  Sid.is_user Sid.unresolved = false.
Proof. repeat split. Qed.

Lemma Sid_of_account_name_unresolved
    (LookupAccountName : list N -> option (SID * Z)) name :
  name = [] \/ LookupAccountName name = None ->
  Sid.of_account_name LookupAccountName name = Sid.unresolved.
Proof.
  intros H. unfold Sid.of_account_name.
  destruct name as [| c name]; [reflexivity |].
  destruct H as [H | H]; [discriminate | now rewrite H].
Qed.

Lemma Sid_of_token_unresolved (GetTokenUser : N -> option (SID * Z)) h :
  h = NULL \/ GetTokenUser h = None ->
  Sid.of_token GetTokenUser h = Sid.unresolved.
Proof.
  intros H. unfold Sid.of_token.
  destruct (N.eqb_spec h NULL) as [_ | Hne]; [reflexivity |].
  destruct H as [H | H]; [contradiction | now rewrite H].
Qed.

(** C4: constructing a Sid from an empty or unresolvable account name,
    or from a null or invalid token handle, gives an object that is not
    valid and on which [is_group] and [is_user] are both false. *)
Theorem Sid_invalid_by_construction
    (LookupAccountName : list N -> option (SID * Z))
    (GetTokenUser : N -> option (SID * Z)) :
  (forall name,
     name = [] \/ LookupAccountName name = None ->
     Sid.is_valid (Sid.of_account_name LookupAccountName name) = false /\
     Sid.is_group (Sid.of_account_name LookupAccountName name) = false /\
     Sid.is_user (Sid.of_account_name LookupAccountName name) = false) /\
  (forall sec_token,
     sec_token = NULL \/ GetTokenUser sec_token = None ->
     Sid.is_valid (Sid.of_token GetTokenUser sec_token) = false /\
     Sid.is_group (Sid.of_token GetTokenUser sec_token) = false /\
     Sid.is_user (Sid.of_token GetTokenUser sec_token) = false).
Proof.
  split.
  - intros name H. rewrite Sid_of_account_name_unresolved by exact H.
    apply Sid_unresolved_queries.
  - intros h H. rewrite Sid_of_token_unresolved by exact H.
    apply Sid_unresolved_queries.
Qed.

(** A name and a token that do resolve give a valid Sid classified by
    the entity type the platform reports. *)
Example Sid_resolved_user :
  Sid.is_valid (Sid.of_token Scenario.token_store 77) = true /\
  Sid.is_user (Sid.of_token Scenario.token_store 77) = true /\
  Sid.is_group (Sid.of_token Scenario.token_store 77) = false /\
  Sid.is_valid (Sid.of_token Scenario.token_store 79) = false.
Proof. repeat split. Qed.

(** The classification reads the stored entity type alone: it does not
    look at the identifier data. *)
Lemma Sid_classification_by_type s d :
  Sid.is_group (Sid.mk d (Sid.m_type s)) = Sid.is_group s /\
  Sid.is_user (Sid.mk d (Sid.m_type s)) = Sid.is_user s.
Proof. split; reflexivity. Qed.

(** C9: the conversion to PSID goes through the data pointer
    unconditionally.  It has a result exactly when the data pointer is
    not null, and then the result is the identifier stored in the
    object's own data. *)
Theorem Sid_to_PSID_defined_iff_data s :
  (Sid.m_data s = None -> Sid.to_PSID s = None) /\
  (forall data, Sid.m_data s = Some data ->
                Sid.to_PSID s = Some (Sid (User data))) /\
  (is_Some (Sid.to_PSID s) <-> Sid.m_data s <> None).
Proof.
  unfold Sid.to_PSID. split; [| split].
  - intros H. now rewrite H.
  - intros data H. now rewrite H.
  - destruct (Sid.m_data s) as [d |]; split.
    + congruence.
    + intros _. now exists (Sid (User d)).
    + intros [x Hx]. discriminate.
    + congruence.
Qed.

Lemma Sid_user_not_group s : Sid.is_user s = true -> Sid.is_group s = false.
Proof.
  unfold Sid.is_group, Sid.is_user. intros Hu.
  apply Z.eqb_eq in Hu. rewrite Hu. reflexivity.
Qed.

(** C10: [is_group] and [is_user] are mutually exclusive: no Sid reports
    both, whatever entity type it stores (any integer, inside the
    enumeration or not). *)
Theorem Sid_group_user_exclusive s :
  Sid.is_group s && Sid.is_user s = false /\
  (Sid.is_group s = true -> Sid.is_user s = false) /\
  (Sid.is_user s = true -> Sid.is_group s = false).
Proof.
  pose proof (Sid_user_not_group s) as H.
  destruct (Sid.is_user s), (Sid.is_group s); repeat split;
    try reflexivity; try (intros _; now apply H); try discriminate.
  now apply H.
Qed.

End SidProperties.

(** ** Connection *)

Section ConnectionProperties.

Implicit Types (c : Connection.t) (b : Blob.t) (o : Connection.op).

Lemma Connection_write_broken c b :
  Connection.error c <> 0%Z -> Connection.write c b = (c, Connection.error c).
Proof.
  intros H. unfold Connection.write, Connection.error in *.
  apply Z.eqb_neq in H. now rewrite H.
Qed.

Lemma Connection_read_broken c :
  Connection.error c <> 0%Z -> Connection.read c = (c, Blob.default).
Proof.
  intros H. unfold Connection.read, Connection.error in *.
  apply Z.eqb_neq in H. now rewrite H.
Qed.

(** A write returns the error code the connection holds afterwards. *)
Lemma Connection_write_result c b :
  snd (Connection.write c b) = Connection.error (fst (Connection.write c b)).
Proof.
  unfold Connection.write, Connection.error.
  destruct (Connection.m_error c =? 0)%Z eqn:He; cbn; [| reflexivity].
  destruct (Vio.write_packet _ _ _) as [vio rc]. reflexivity.
Qed.

(** A read on a healthy connection whose transport reports a negative
    length returns the null blob and leaves a nonzero error. *)
Lemma Connection_read_transport_failure c :
  Connection.error c = 0%Z ->
  (snd (snd (Vio.read_packet (Connection.m_vio c))) < 0)%Z ->
  snd (Connection.read c) = Blob.default /\
  Connection.error (fst (Connection.read c)) <> 0%Z.
Proof.
  unfold Connection.read, Connection.error. intros He Hn. rewrite He. cbn.
  destruct (Vio.read_packet _) as [vio [buf n]]. cbn in Hn.
  apply Z.ltb_lt in Hn. rewrite Hn. cbn. split; [reflexivity | lia].
Qed.

Lemma Connection_exec_broken c o :
  Connection.error c <> 0%Z ->
  fst (Connection.exec c o) = c /\
  Connection.failed (snd (Connection.exec c o)) = true.
Proof.
  intros H. destruct o as [b |]; cbn.
  - rewrite (Connection_write_broken c b H). cbn. split; [reflexivity |].
    apply Z.eqb_neq in H. now rewrite H.
  - rewrite (Connection_read_broken c H). cbn. split; reflexivity.
Qed.

Lemma Connection_run_broken c (ops : list Connection.op) :
  Connection.error c <> 0%Z ->
  fst (Connection.run c ops) = c /\
  Forall (fun r => Connection.failed r = true) (snd (Connection.run c ops)).
Proof.
  intros H. induction ops as [| o ops IH]; cbn.
  - split; [reflexivity | constructor].
  - destruct (Connection_exec_broken c o H) as [Hc Hr].
    destruct (Connection.exec c o) as [c' r]. cbn in Hc, Hr. subst c'.
    destruct (Connection.run c ops) as [c'' rs]. cbn in *.
    destruct IH as [IHc IHr]. split; [exact IHc | now constructor].
Qed.

(** C3: the error code is sticky.  A connection starts with error zero;
    a write that fails, or a read whose transport fails, leaves a nonzero
    error, which [error] returns; and once the error is nonzero every
    operation, and every sequence of operations, fails and leaves the
    connection as it was: the error code is kept and the transport is
    not called. *)
Theorem Connection_error_sticky :
  (forall vio, Connection.error (Connection.ctor vio) = 0%Z) /\
  (forall c b, snd (Connection.write c b) <> 0%Z ->
     Connection.error (fst (Connection.write c b)) = snd (Connection.write c b) /\
     Connection.error (fst (Connection.write c b)) <> 0%Z) /\
  (forall c, Connection.error c = 0%Z ->
     (snd (snd (Vio.read_packet (Connection.m_vio c))) < 0)%Z ->
     Blob.is_null (snd (Connection.read c)) = true /\
     Connection.error (fst (Connection.read c)) <> 0%Z) /\
  (forall c o, Connection.error c <> 0%Z ->
     Connection.failed (snd (Connection.exec c o)) = true /\
     Connection.error (fst (Connection.exec c o)) = Connection.error c /\
     Vio.io (Connection.m_vio (fst (Connection.exec c o)))
       = Vio.io (Connection.m_vio c) /\
     Connection.m_vio (fst (Connection.exec c o)) = Connection.m_vio c) /\
  (forall c ops, Connection.error c <> 0%Z ->
     Forall (fun r => Connection.failed r = true) (snd (Connection.run c ops)) /\
     Connection.error (fst (Connection.run c ops)) = Connection.error c /\
     Vio.io (Connection.m_vio (fst (Connection.run c ops)))
       = Vio.io (Connection.m_vio c)).
Proof.
  split; [reflexivity |]. split; [| split; [| split]].
  - intros c b Hrc. rewrite <- Connection_write_result. split; [reflexivity | exact Hrc].
  - intros c He Hn.
    destruct (Connection_read_transport_failure c He Hn) as [Hb Herr].
    rewrite Hb. split; [reflexivity | exact Herr].
  - intros c o H. destruct (Connection_exec_broken c o H) as [Hc Hr].
    rewrite Hc. repeat split. exact Hr.
  - intros c ops H. destruct (Connection_run_broken c ops H) as [Hc Hr].
    rewrite Hc. repeat split. exact Hr.
Qed.

(** A transport that fails its second write: the third call, a read,
    fails without reaching the transport. *)
Example Connection_sticky_run :
  Connection.run
    (Connection.ctor (Vio.mk [(500, 4%Z)] [0%Z; 7%Z] []))
    [Connection.Write (Blob.of_region 100 2);
     Connection.Write (Blob.of_region 200 3);
     Connection.Read]
  = (Connection.mk
       (Vio.mk [(500, 4%Z)] []
          [Vio.Written (Blob.of_region 100 2); Vio.Written (Blob.of_region 200 3)])
       7,
     [Connection.Wrote 0; Connection.Wrote 7; Connection.Got Blob.default]).
Proof. reflexivity. Qed.

End ConnectionProperties.

(** ** The transport script *)

Section TransportProperties.

Implicit Types (v : Vio.t) (c : Connection.t) (b : Blob.t).

Lemma Blob_of_region_eta b : Blob.of_region (Blob.ptr b) (Blob.len b) = b.
Proof. now destruct b. Qed.

Lemma Vio_reads_app v (es : list Vio.event) inc out :
  Vio.reads (Vio.mk inc out (Vio.io v ++ es))
  = (Vio.reads v + length (List.filter Vio.is_read es))%nat.
Proof. unfold Vio.reads. cbn. now rewrite List.filter_app, length_app. Qed.

Lemma Vio_writes_app v (es : list Vio.event) inc out :
  Vio.writes (Vio.mk inc out (Vio.io v ++ es))
  = (Vio.writes v
     + length (List.filter (fun e => negb (Vio.is_read e)) es))%nat.
Proof. unfold Vio.writes. cbn. now rewrite List.filter_app, length_app. Qed.

Lemma transport_ok_fewer_writes r w v :
  transport_ok r (S w) v -> transport_ok r w v.
Proof.
  intros (Hr & Hw & Hin & Hout). repeat split; try assumption; [lia |].
  replace (take w (Vio.outcomes v)) with (take w (take (S w) (Vio.outcomes v))).
  - now apply Forall_take.
  - rewrite take_take. f_equal. lia.
Qed.

Lemma transport_ok_read r w v :
  transport_ok (S r) w v ->
  exists buf n v',
    Vio.read_packet v = (v', (buf, n)) /\ (0 <= n)%Z /\
    transport_ok r w v' /\
    Vio.reads v' = S (Vio.reads v) /\ Vio.writes v' = Vio.writes v.
Proof.
  intros (Hr & Hw & Hin & Hout). unfold Vio.read_packet.
  destruct (Vio.incoming v) as [| [buf n] rest] eqn:Hinc; cbn in Hr; [lia |].
  cbn in Hin. apply Forall_cons in Hin as [Hn Hrest]. cbn in Hn.
  exists buf, n, (Vio.mk rest (Vio.outcomes v) (Vio.io v ++ [Vio.Received])).
  split; [reflexivity |]. split; [exact Hn |]. split.
  - repeat split; cbn; try assumption. lia.
  - rewrite Vio_reads_app, Vio_writes_app. cbn. lia.
Qed.

Lemma transport_ok_write r w v p n :
  transport_ok r (S w) v ->
  exists v',
    Vio.write_packet v p n = (v', 0%Z) /\
    transport_ok r w v' /\
    Vio.io v' = Vio.io v ++ [Vio.Written (Blob.of_region p n)] /\
    Vio.reads v' = Vio.reads v /\ Vio.writes v' = S (Vio.writes v).
Proof.
  intros (Hr & Hw & Hin & Hout). unfold Vio.write_packet.
  destruct (Vio.outcomes v) as [| rc rest] eqn:Hoc; cbn in Hw; [lia |].
  cbn in Hout. apply Forall_cons in Hout as [Hrc Hrest]. subst rc.
  exists (Vio.mk (Vio.incoming v) rest
            (Vio.io v ++ [Vio.Written (Blob.of_region p n)])).
  split; [reflexivity |]. split.
  - repeat split; cbn; try assumption. lia.
  - split; [reflexivity |].
    rewrite Vio_reads_app, Vio_writes_app. cbn. lia.
Qed.

Lemma Connection_read_ok r w c :
  Connection.error c = 0%Z ->
  transport_ok (S r) w (Connection.m_vio c) ->
  Connection.error (fst (Connection.read c)) = 0%Z /\
  transport_ok r w (Connection.m_vio (fst (Connection.read c))) /\
  Vio.reads (Connection.m_vio (fst (Connection.read c)))
    = S (Vio.reads (Connection.m_vio c)) /\
  Vio.writes (Connection.m_vio (fst (Connection.read c)))
    = Vio.writes (Connection.m_vio c).
Proof.
  intros He Hok. unfold Connection.read, Connection.error in *. rewrite He. cbn.
  destruct (transport_ok_read r w _ Hok) as (buf & n & v' & Hrd & Hn & Hok' & Hcount).
  rewrite Hrd. apply Z.ltb_ge in Hn. rewrite Hn. cbn.
  split; [reflexivity |]. split; assumption.
Qed.

Lemma Connection_write_ok r w c b :
  Connection.error c = 0%Z ->
  transport_ok r (S w) (Connection.m_vio c) ->
  snd (Connection.write c b) = 0%Z /\
  Connection.error (fst (Connection.write c b)) = 0%Z /\
  transport_ok r w (Connection.m_vio (fst (Connection.write c b))) /\
  Vio.io (Connection.m_vio (fst (Connection.write c b)))
    = Vio.io (Connection.m_vio c) ++ [Vio.Written b] /\
  Vio.reads (Connection.m_vio (fst (Connection.write c b)))
    = Vio.reads (Connection.m_vio c) /\
  Vio.writes (Connection.m_vio (fst (Connection.write c b)))
    = S (Vio.writes (Connection.m_vio c)).
Proof.
  intros He Hok. unfold Connection.write, Connection.error in *. rewrite He. cbn.
  destruct (transport_ok_write r w _ (Blob.ptr b) (Blob.len b) Hok)
    as (v' & Hwr & Hok' & Hio & Hcount).
  destruct Hcount as [Hreads Hwrites].
  rewrite Hwr. cbn. rewrite Hio, Blob_of_region_eta.
  split; [reflexivity |]. split; [reflexivity |]. split; [exact Hok' |].
  split; [reflexivity |]. split; assumption.
Qed.

End TransportProperties.

(** ** Handshake *)

Section HandshakeProperties.

Import Handshake.

Context {PS : Type}.
Variable negotiate : PS -> Blob.t -> option Blob.t -> PS * (Blob.t * Handshake.status).
Variable peer_token : PS -> N.
Variable GetTokenUser : N -> option (SID * Z).
Variable upn : UPN.t.
Variable target : Blob.t.

Local Abbreviation begin := (Handshake.begin negotiate upn target).
Local Abbreviation exchange := (Handshake.exchange negotiate target).
Local Abbreviation verify := (Handshake.verify peer_token GetTokenUser).
Local Abbreviation progress :=
  (Handshake.progress negotiate peer_token GetTokenUser target).
Local Abbreviation step :=
  (Handshake.step negotiate peer_token GetTokenUser upn target).
Local Abbreviation run :=
  (Handshake.run negotiate peer_token GetTokenUser upn target).
Local Abbreviation replies_to := (Handshake.replies_to negotiate target).
Local Abbreviation conversation := (Handshake.conversation negotiate target).
Local Abbreviation continues := (Handshake.continues negotiate target).
Local Abbreviation reported_by_primitive :=
  (Handshake.reported_by_primitive negotiate target).

Implicit Types (s : Handshake.session PS).

(** *** The shape of each transition *)

Lemma begin_state s : state (begin s) = InProgress.
Proof.
  unfold Handshake.begin. destruct (Connection.write _ _) as [c rc].
  destruct (negb _); [reflexivity |].
  destruct (negotiate _ _ _) as [ctx [tok st]]. reflexivity.
Qed.

Lemma begin_keeps s : expected (begin s) = expected s /\ peer (begin s) = peer s.
Proof.
  unfold Handshake.begin. destruct (Connection.write _ _) as [c rc].
  destruct (negb _); [split; reflexivity |].
  destruct (negotiate _ _ _) as [ctx [tok st]]. split; reflexivity.
Qed.

Lemma exchange_state s :
  state (exchange s) = InProgress \/ state (exchange s) = Failed.
Proof.
  unfold Handshake.exchange. destruct (Connection.read _) as [c1 inbound].
  destruct (negb _); [now right |].
  destruct (negotiate _ _ _) as [ctx [tok st]]. now left.
Qed.

Lemma exchange_keeps s :
  expected (exchange s) = expected s /\ peer (exchange s) = peer s.
Proof.
  unfold Handshake.exchange. destruct (Connection.read _) as [c1 inbound].
  destruct (negb _); [split; reflexivity |].
  destruct (negotiate _ _ _) as [ctx [tok st]]. split; reflexivity.
Qed.

Lemma step_terminal s : terminal (state s) = true -> step s = s.
Proof.
  unfold Handshake.step. destruct (state s); cbn; congruence.
Qed.

Lemma run_terminal n s : terminal (state s) = true -> run n s = s.
Proof.
  intros H. induction n as [| n IH]; cbn; [reflexivity |].
  now rewrite (step_terminal s H).
Qed.

Lemma step_expected s : expected (step s) = expected s.
Proof.
  unfold Handshake.step. destruct (state s); try reflexivity.
  - apply begin_keeps.
  - unfold Handshake.progress. destruct (negb _); [reflexivity |].
    destruct (reported s) as [[| |] |]; try reflexivity.
    apply exchange_keeps.
Qed.

Lemma run_expected n s : expected (run n s) = expected s.
Proof.
  revert s. induction n as [| n IH]; intros s; cbn; [reflexivity |].
  now rewrite IH, step_expected.
Qed.

(** The only transition into Completed is rule 3, taken from InProgress
    on a healthy channel after the primitive reported Done, and only when
    the resolved peer identity equals the expected one. *)
Lemma step_Completed s :
  state s <> Completed -> state (step s) = Completed ->
  state s = InProgress /\
  Connection.error (con s) = 0%Z /\
  reported s = Some Done /\
  step s = verify s /\
  Sid.eq (Sid.of_token GetTokenUser (peer_token (context s))) (expected s) = true.
Proof.
  intros Hne. unfold Handshake.step. destruct (state s) eqn:Hst.
  - rewrite begin_state. discriminate.
  - unfold Handshake.progress.
    destruct (Connection.error (con s) =? 0)%Z eqn:He; cbn; [| discriminate].
    apply Z.eqb_eq in He.
    destruct (reported s) as [[| |] |]; cbn; try discriminate.
    + destruct (exchange_state s) as [H | H]; rewrite H; discriminate.
    + destruct (Sid.eq _ _) eqn:Heq; [| discriminate].
      intros _. repeat split; assumption.
  - contradiction.
  - rewrite Hst. discriminate.
Qed.

Lemma step_verified s : verified s -> verified (step s).
Proof.
  intros Hv. destruct (terminal (state s)) eqn:Ht.
  - now rewrite (step_terminal s Ht).
  - intros Hc.
    assert (state s <> Completed) as Hne by (intros E; rewrite E in Ht; discriminate).
    destruct (step_Completed s Hne Hc) as (_ & He & Hrep & Hstep & Heq).
    rewrite Hstep. cbn.
    split; [exact Hrep |]. split; [exact He |].
    eexists. split; [reflexivity | exact Heq].
Qed.

Lemma run_verified n s : verified s -> verified (run n s).
Proof.
  revert s. induction n as [| n IH]; intros s Hv; cbn; [exact Hv |].
  apply IH, step_verified, Hv.
Qed.

Lemma start_verified vio expect (ctx : PS) : verified (start vio expect ctx).
Proof. intros H. discriminate. Qed.

(** Where a step from InProgress leads. *)
Lemma progress_outcome s :
  state s = InProgress ->
  (Connection.error (con s) <> 0%Z -> state (step s) = Failed) /\
  (reported s = Some FatalError -> state (step s) = Failed) /\
  (reported s = None -> state (step s) = Failed) /\
  (Connection.error (con s) = 0%Z -> reported s = Some Done ->
     state (step s)
     = if Sid.eq (Sid.of_token GetTokenUser (peer_token (context s))) (expected s)
       then Completed else Failed).
Proof.
  intros Hst. unfold Handshake.step. rewrite Hst. unfold Handshake.progress.
  destruct (Connection.error (con s) =? 0)%Z eqn:He; cbn.
  - apply Z.eqb_eq in He. split; [intros H; contradiction |].
    split; [intros ->; reflexivity |]. split; [intros ->; reflexivity |].
    intros _ ->. reflexivity.
  - apply Z.eqb_neq in He. repeat split; try reflexivity. intros H; contradiction.
Qed.

Lemma step_verify s :
  state s = InProgress -> Connection.error (con s) = 0%Z ->
  reported s = Some Done -> step s = verify s.
Proof.
  intros Hst He Hrep. unfold Handshake.step, Handshake.progress.
  now rewrite Hst, He, Hrep.
Qed.

Lemma step_leaves_NotStarted s : state (step s) <> NotStarted.
Proof.
  unfold Handshake.step. destruct (state s) eqn:Hst.
  - rewrite begin_state. discriminate.
  - unfold Handshake.progress. destruct (negb _); [discriminate |].
    destruct (reported s) as [[| |] |]; cbn; try discriminate.
    + destruct (exchange_state s) as [H | H]; rewrite H; discriminate.
    + destruct (Sid.eq _ _); discriminate.
  - congruence.
  - congruence.
Qed.

(** A step from InProgress stays there only by an exchange, made while
    the channel is healthy and the primitive asks to continue. *)
Lemma step_stays_InProgress s :
  state s = InProgress -> state (step s) = InProgress ->
  Connection.error (con s) = 0%Z /\ reported s = Some Continue.
Proof.
  intros Hst. unfold Handshake.step. rewrite Hst. unfold Handshake.progress.
  destruct (Connection.error (con s) =? 0)%Z eqn:He; cbn; [| discriminate].
  apply Z.eqb_eq in He.
  destruct (reported s) as [[| |] |]; cbn; try discriminate.
  - intros _. now split.
  - destruct (Sid.eq _ _); discriminate.
Qed.

Lemma step_reported s : reported_by_primitive s -> reported_by_primitive (step s).
Proof.
  intros H. unfold Handshake.step. destruct (state s); try exact H.
  - unfold Handshake.begin. destruct (Connection.write _ _) as [c rc].
    destruct (negb _); [exact H |].
    destruct (negotiate (context s) target None) as [ctx [tok st]] eqn:Hn.
    intros st' [= <-]. exists (context s), None. now rewrite Hn.
  - unfold Handshake.progress. destruct (negb _); [exact H |].
    destruct (reported s) as [[| |] |] eqn:Hrep; try exact H.
    unfold Handshake.exchange. destruct (Connection.read _) as [c1 inbound].
    destruct (negb _); [exact H |].
    destruct (negotiate (context s) target (Some inbound)) as [ctx [tok st]] eqn:Hn.
    intros st' [= <-]. exists (context s), (Some inbound). now rewrite Hn.
Qed.

Lemma run_reported n s : reported_by_primitive s -> reported_by_primitive (run n s).
Proof.
  revert s. induction n as [| n IH]; intros s H; cbn; [exact H |].
  apply IH, step_reported, H.
Qed.

(** An unresolved peer identity equals nothing. *)
Lemma verify_unresolved s :
  peer_token (context s) = NULL \/ GetTokenUser (peer_token (context s)) = None ->
  state (verify s) = Failed.
Proof.
  intros H. unfold Handshake.verify. cbn.
  rewrite (Sid_of_token_unresolved GetTokenUser _ H).
  now rewrite Sid_eq_invalid_l.
Qed.


(** *** Counting the exchanges *)

Local Abbreviation vio_of s := (Connection.m_vio (con s)).

(** A read on a healthy connection takes the next packet of the
    transport. *)
Lemma Connection_read_exact r w (c : Connection.t) :
  Connection.error c = 0%Z ->
  transport_ok (S r) w (Connection.m_vio c) ->
  exists buf n more,
    Vio.incoming (Connection.m_vio c) = (buf, n) :: more /\
    snd (Connection.read c) = Blob.of_region buf (Z.to_N n) /\
    Connection.error (fst (Connection.read c)) = 0%Z /\
    transport_ok r w (Connection.m_vio (fst (Connection.read c))) /\
    Vio.incoming (Connection.m_vio (fst (Connection.read c))) = more /\
    Vio.io (Connection.m_vio (fst (Connection.read c)))
    = Vio.io (Connection.m_vio c) ++ [Vio.Received].
Proof.
  intros He (Hr & Hw & Hin & Hout).
  unfold Connection.read, Connection.error in *. rewrite He. cbn.
  unfold Vio.read_packet.
  destruct (Vio.incoming (Connection.m_vio c)) as [| [buf n] more] eqn:Hinc;
    cbn in Hr; [lia |].
  cbn in Hin. apply Forall_cons in Hin as [Hn Hrest]. cbn in Hn.
  exists buf, n, more. split; [reflexivity |].
  apply Z.ltb_ge in Hn. rewrite Hn. cbn.
  split; [reflexivity |]. split; [reflexivity |]. split.
  - unfold transport_ok. cbn. split; [lia |]. now split.
  - split; reflexivity.
Qed.

(** An outbound token on a healthy connection: written unless empty, and
    the packets to come are untouched. *)
Lemma Connection_send_exact r w (c : Connection.t) (outbound : Blob.t) :
  Connection.error c = 0%Z ->
  transport_ok r (S w) (Connection.m_vio c) ->
  forall c2,
    c2 = (if has_token outbound then fst (Connection.write c outbound) else c) ->
    Connection.error c2 = 0%Z /\
    transport_ok r w (Connection.m_vio c2) /\
    Vio.incoming (Connection.m_vio c2) = Vio.incoming (Connection.m_vio c) /\
    Vio.io (Connection.m_vio c2) = Vio.io (Connection.m_vio c) ++ sent outbound.
Proof.
  intros He Hok c2 ->. unfold sent. destruct (has_token outbound).
  - destruct Hok as (Hr & Hw & Hin & Hout).
    unfold Connection.write, Connection.error in *. rewrite He. cbn.
    unfold Vio.write_packet.
    destruct (Vio.outcomes (Connection.m_vio c)) as [| rc rest] eqn:Hoc;
      cbn in Hw; [lia |].
    cbn in Hout. apply Forall_cons in Hout as [-> Hrest]. cbn.
    rewrite Blob_of_region_eta.
    split; [reflexivity |]. split; [| split; reflexivity].
    unfold transport_ok. cbn. split; [exact Hr |]. split; [lia |]. now split.
  - split; [exact He |]. split; [now apply transport_ok_fewer_writes |].
    split; [reflexivity |]. now rewrite app_nil_r.
Qed.

(** Rule 1 on a healthy session: the principal name is written, the
    primitive is presented with no inbound token, and its first token is
    sent. *)
Lemma begin_exact r w s :
  Connection.error (con s) = 0%Z ->
  transport_ok r (S (S w)) (vio_of s) ->
  state (begin s) = InProgress /\
  context (begin s) = fst (negotiate (context s) target None) /\
  reported (begin s) = Some (snd (snd (negotiate (context s) target None))) /\
  Connection.error (con (begin s)) = 0%Z /\
  transport_ok r w (vio_of (begin s)) /\
  Vio.incoming (vio_of (begin s)) = Vio.incoming (vio_of s) /\
  Vio.io (vio_of (begin s))
  = Vio.io (vio_of s)
    ++ Vio.Written (UPN.as_blob upn)
       :: sent (fst (snd (negotiate (context s) target None))) /\
  peer (begin s) = peer s /\
  rounds (begin s) = rounds s.
Proof.
  intros He Hok.
  destruct (Connection_write_ok r (S w) (con s) (UPN.as_blob upn) He Hok)
    as (Hrc & He1 & Hok1 & Hio1 & _ & _).
  assert (Vio.incoming (Connection.m_vio (fst (Connection.write (con s) (UPN.as_blob upn))))
          = Vio.incoming (vio_of s)) as Hinc1.
  { unfold Connection.write. unfold Connection.error in He. rewrite He. cbn.
    unfold Vio.write_packet. now destruct (Vio.outcomes (vio_of s)). }
  unfold Handshake.begin.
  destruct (Connection.write (con s) (UPN.as_blob upn)) as [c1 rc].
  cbn in Hrc, He1, Hok1, Hio1, Hinc1. subst rc. cbn.
  destruct (negotiate (context s) target None) as [ctx [outbound st]]. cbn.
  destruct (Connection_send_exact r w c1 outbound He1 Hok1 _ eq_refl)
    as (He2 & Hok2 & Hinc2 & Hio2).
  split; [reflexivity |]. split; [reflexivity |]. split; [reflexivity |].
  split; [exact He2 |]. split; [exact Hok2 |].
  split; [now rewrite Hinc2 |]. split; [| split; reflexivity].
  rewrite Hio2, Hio1. now rewrite <- app_assoc.
Qed.

(** One exchange on a healthy session: the next packet is read and fed to
    the primitive, and the token it produces is sent. *)
Lemma exchange_exact r w s :
  Connection.error (con s) = 0%Z ->
  transport_ok (S r) (S w) (vio_of s) ->
  exists buf n more,
    Vio.incoming (vio_of s) = (buf, n) :: more /\
    state (exchange s) = InProgress /\
    context (exchange s)
    = fst (negotiate (context s) target (Some (Blob.of_region buf (Z.to_N n)))) /\
    reported (exchange s)
    = Some (snd (snd (negotiate (context s) target
                        (Some (Blob.of_region buf (Z.to_N n)))))) /\
    Connection.error (con (exchange s)) = 0%Z /\
    transport_ok r w (vio_of (exchange s)) /\
    Vio.incoming (vio_of (exchange s)) = more /\
    Vio.io (vio_of (exchange s))
    = Vio.io (vio_of s)
      ++ exchanged (snd (negotiate (context s) target
                           (Some (Blob.of_region buf (Z.to_N n))))) /\
    peer (exchange s) = peer s /\
    rounds (exchange s) = S (rounds s).
Proof.
  intros He Hok.
  destruct (Connection_read_exact r (S w) (con s) He Hok)
    as (buf & n & more & Hinc & Hin & He1 & Hok1 & Hinc1 & Hio1).
  exists buf, n, more. split; [exact Hinc |].
  unfold Handshake.exchange.
  destruct (Connection.read (con s)) as [c1 inbound].
  cbn in Hin, He1, Hok1, Hinc1, Hio1. subst inbound. rewrite He1. cbn.
  destruct (negotiate (context s) target (Some (Blob.of_region buf (Z.to_N n))))
    as [ctx [outbound st]]. cbn.
  destruct (Connection_send_exact r w c1 outbound He1 Hok1 _ eq_refl)
    as (He2 & Hok2 & Hinc2 & Hio2).
  split; [reflexivity |]. split; [reflexivity |]. split; [reflexivity |].
  split; [exact He2 |]. split; [exact Hok2 |].
  split; [now rewrite Hinc2 |]. split; [| split; reflexivity].
  rewrite Hio2, Hio1. unfold exchanged. cbn. now rewrite <- app_assoc.
Qed.

Lemma step_exchange s :
  state s = InProgress -> Connection.error (con s) = 0%Z ->
  reported s = Some Continue -> step s = exchange s.
Proof.
  intros Hst He Hrep. unfold Handshake.step, Handshake.progress.
  now rewrite Hst, He, Hrep.
Qed.

(** From a healthy session in progress whose primitive has just asked to
    continue and, fed the packets to come, does so [j] more times before
    it is done: [S j] steps are [S j] exchanges, none of which checks the
    identity, and the channel sees exactly those exchanges. *)
Lemma exchanges_until_done j : forall s,
  state s = InProgress ->
  Connection.error (con s) = 0%Z ->
  reported s = Some Continue ->
  transport_ok (S j) (S j) (vio_of s) ->
  map snd (fst (replies_to (S j) (context s) (Vio.incoming (vio_of s))))
  = replicate j Continue ++ [Done] ->
  (forall n, (n <= S j)%nat ->
     state (run n s) = InProgress /\ peer (run n s) = peer s) /\
  reported (run (S j) s) = Some Done /\
  Connection.error (con (run (S j) s)) = 0%Z /\
  rounds (run (S j) s) = (rounds s + S j)%nat /\
  context (run (S j) s)
  = snd (replies_to (S j) (context s) (Vio.incoming (vio_of s))) /\
  Vio.io (vio_of (run (S j) s))
  = Vio.io (vio_of s)
    ++ concat (map exchanged
                 (fst (replies_to (S j) (context s) (Vio.incoming (vio_of s))))).
Proof.
  induction j as [| j IH]; intros s Hst He Hrep Hok Hk.
  - destruct (exchange_exact 0 0 s He Hok)
      as (buf & n & more & Hinc & Hst1 & Hctx1 & Hrep1 & He1 & _ & _ & Hio1 & Hp1 & Hrd1).
    rewrite Hinc in Hk |- *. cbn [Handshake.replies_to] in Hk |- *.
    destruct (negotiate (context s) target (Some (Blob.of_region buf (Z.to_N n))))
      as [ctx [outbound st]].
    destruct more as [| packet more']; cbn in Hk, Hctx1, Hrep1, Hio1 |- *;
      injection Hk as ->; cbn [Handshake.run];
      rewrite (step_exchange s Hst He Hrep);
      (split;
       [ intros [| [| m]] Hm; cbn [Handshake.run];
         [ now split
         | rewrite (step_exchange s Hst He Hrep); now split
         | lia ]
       | split; [exact Hrep1 |]; split; [exact He1 |];
         split; [lia |]; split; [exact Hctx1 |];
         rewrite Hio1; now rewrite app_nil_r ]).
  - destruct (exchange_exact (S j) (S j) s He Hok)
      as (buf & n & more & Hinc & Hst1 & Hctx1 & Hrep1 & He1 & Hok1 & Hinc1
          & Hio1 & Hp1 & Hrd1).
    rewrite Hinc in Hk |- *.
    change (replies_to (S (S j)) (context s) ((buf, n) :: more))
      with (let '(ctx', reply) :=
              negotiate (context s) target (Some (Blob.of_region buf (Z.to_N n))) in
            let '(replies, last) := replies_to (S j) ctx' more in
            (reply :: replies, last)) in Hk |- *.
    destruct (negotiate (context s) target (Some (Blob.of_region buf (Z.to_N n))))
      as [ctx [outbound st]].
    cbn [fst snd] in Hctx1, Hrep1, Hio1.
    destruct (replies_to (S j) ctx more) as [replies last] eqn:Hrest.
    cbn [fst snd map] in Hk |- *.
    change (replicate (S j) Continue) with (Continue :: replicate j Continue) in Hk.
    cbn [app] in Hk. injection Hk as -> Hk.
    assert (map snd (fst (replies_to (S j) (context (exchange s))
                            (Vio.incoming (vio_of (exchange s)))))
            = replicate j Continue ++ [Done]) as Hk1
      by (rewrite Hctx1, Hinc1, Hrest; exact Hk).
    destruct (IH (exchange s) Hst1 He1 Hrep1 Hok1 Hk1)
      as (Hpre & Hrep' & He' & Hrd' & Hctx' & Hio').
    rewrite Hctx1, Hinc1, Hrest in Hctx', Hio'. cbn [fst snd] in Hctx', Hio'.
    change (run (S (S j)) s) with (run (S j) (step s)).
    rewrite (step_exchange s Hst He Hrep).
    split.
    + intros [| m] Hm; [now split |].
      change (run (S m) s) with (run m (step s)).
      rewrite (step_exchange s Hst He Hrep).
      destruct (Hpre m ltac:(lia)) as [H1 H2]. split; [exact H1 | congruence].
    + split; [exact Hrep' |]. split; [exact He' |]. split; [lia |].
      split; [exact Hctx' |].
      rewrite Hio', Hio1. cbn [map concat]. now rewrite <- app_assoc.
Qed.

Lemma verify_outcome s :
  terminal (state (verify s)) = true /\
  peer (verify s) = Some (Sid.of_token GetTokenUser (peer_token (context s))) /\
  con (verify s) = con s /\
  rounds (verify s) = rounds s.
Proof.
  unfold Handshake.verify. cbn. destruct (Sid.eq _ _); repeat split.
Qed.

Lemma sent_no_read (b : Blob.t) : List.filter Vio.is_read (sent b) = [].
Proof. unfold sent. now destruct (has_token b). Qed.

(** A transcript holds one read for each reply after the first. *)
Lemma transcript_reads (replies : list (Blob.t * status)) :
  length (List.filter Vio.is_read (transcript replies)) = pred (length replies).
Proof.
  destruct replies as [| first later]; [reflexivity |].
  cbn [transcript length pred]. rewrite List.filter_app, sent_no_read. cbn [app].
  induction later as [| reply later IH]; [reflexivity |].
  cbn [map concat]. rewrite List.filter_app. unfold exchanged at 1.
  cbn [List.filter Vio.is_read]. rewrite sent_no_read, length_app.
  cbn [length]. now rewrite IH.
Qed.


End HandshakeProperties.

(** ** The simulated login *)

Section ScenarioProperties.

Import Handshake.



(** Success: the negotiated peer resolves to the expected identity. *)
Example Scenario_success : state (Scenario.login 77 4) = Completed.
Proof. reflexivity. Qed.

(** Impersonation rejected: the peer resolves to another account. *)
Example Scenario_impersonation : state (Scenario.login 78 4) = Failed.
Proof. reflexivity. Qed.

(** An unresolvable peer handle fails as well. *)
Example Scenario_unresolved_peer : state (Scenario.login 79 4) = Failed.
Proof. reflexivity. Qed.

(** More fuel changes nothing once a terminal state is reached. *)
Example Scenario_absorbing :
  Scenario.login 77 10 = Scenario.login 77 4 /\
  Scenario.login 78 10 = Scenario.login 78 4.
Proof. split; reflexivity. Qed.

End ScenarioProperties.

(** * Further properties of the code in common.h *)

(** ** Blobs over C strings *)

Section CStringProperties.

Implicit Types (mem : memory) (p str : N) (cs : list N).

Lemma holds_string_nil mem p : holds_string mem p [] <-> mem !! p = Some 0.
Proof.
  unfold holds_string. cbn. rewrite N.add_0_r. split.
  - intros [_ H]. exact H.
  - intros H. split; [intros i x Hi; discriminate | exact H].
Qed.

Lemma holds_string_cons mem p c cs :
  holds_string mem p (c :: cs) <->
  mem !! p = Some c /\ c <> 0 /\ holds_string mem (p + 1) cs.
Proof.
  unfold holds_string. split.
  - intros [Hcs Hend].
    destruct (Hcs 0%nat c eq_refl) as [H0 Hc]. cbn in H0. rewrite N.add_0_r in H0.
    split; [exact H0 |]. split; [exact Hc |]. split.
    + intros i x Hi. specialize (Hcs (S i) x Hi).
      replace (p + 1 + N.of_nat i) with (p + N.of_nat (S i)) by lia. exact Hcs.
    + replace (p + 1 + N.of_nat (length cs)) with (p + N.of_nat (length (c :: cs)))
        by (cbn [length]; lia).
      exact Hend.
  - intros (H0 & Hc & Hcs & Hend). split.
    + intros [| i] x Hi.
      * cbn in Hi. injection Hi as <-. cbn. rewrite N.add_0_r. now split.
      * specialize (Hcs i x Hi).
        replace (p + N.of_nat (S i)) with (p + 1 + N.of_nat i) by lia. exact Hcs.
    + replace (p + N.of_nat (length (c :: cs))) with (p + 1 + N.of_nat (length cs))
        by (cbn [length]; lia).
      exact Hend.
Qed.

(** With fuel beyond the length, the scan returns the length. *)
Lemma strlen_from_complete cs : forall mem p fuel,
  holds_string mem p cs -> (length cs < fuel)%nat ->
  strlen_from mem p fuel = Some (N.of_nat (length cs)).
Proof.
  induction cs as [| c cs IH]; intros mem p fuel H Hfuel.
  - apply holds_string_nil in H. destruct fuel as [| fuel]; [cbn in Hfuel; lia |].
    cbn. now rewrite H.
  - apply holds_string_cons in H as (H0 & Hc & Hcs).
    destruct fuel as [| fuel]; [lia |]. cbn [strlen_from length]. rewrite H0.
    apply N.eqb_neq in Hc. rewrite Hc.
    rewrite (IH mem (p + 1) fuel Hcs) by (cbn [length] in Hfuel; lia).
    f_equal. lia.
Qed.

(** A scan that returns has walked over a string. *)
Lemma strlen_from_sound fuel : forall mem p n,
  strlen_from mem p fuel = Some n ->
  exists cs, holds_string mem p cs /\ n = N.of_nat (length cs).
Proof.
  induction fuel as [| fuel IH]; intros mem p n H; [discriminate |].
  cbn in H. destruct (mem !! p) as [c |] eqn:H0; [| discriminate].
  destruct (N.eqb_spec c 0) as [-> | Hc].
  - injection H as <-. exists []. split; [now apply holds_string_nil | reflexivity].
  - destruct (strlen_from mem (p + 1) fuel) as [m |] eqn:Hm; [| discriminate].
    injection H as <-. destruct (IH mem (p + 1) m Hm) as (cs & Hcs & ->).
    exists (c :: cs). split; [now apply holds_string_cons |].
    cbn [length]. lia.
Qed.

(** A string with its terminator takes more room than its length: the
    bound on the scan is never reached. *)
Lemma holds_string_size cs : forall mem p,
  holds_string mem p cs -> (length cs < size mem)%nat.
Proof.
  induction cs as [| c cs IH]; intros mem p H.
  - apply holds_string_nil in H.
    pose proof (map_size_ne_0_lookup_2 mem p (mk_is_Some _ _ H)). cbn. lia.
  - apply holds_string_cons in H as (H0 & Hc & Hcs).
    assert (holds_string (delete p mem) (p + 1) cs) as Hdel.
    { destruct Hcs as [Hcs Hend]. split.
      - intros i x Hi. rewrite lookup_delete_ne by lia. now apply Hcs.
      - rewrite lookup_delete_ne by lia. exact Hend. }
    specialize (IH _ _ Hdel).
    rewrite (map_size_delete_Some p mem (mk_is_Some _ _ H0)) in IH.
    cbn [length]. lia.
Qed.

Lemma strlen_holds_string mem p cs :
  holds_string mem p cs -> strlen mem p = Some (N.of_nat (length cs)).
Proof.
  intros H. unfold strlen. apply strlen_from_complete; [exact H |].
  pose proof (holds_string_size cs mem p H). lia.
Qed.

Lemma holds_string_views mem p cs :
  holds_string mem p cs -> Blob.views mem (Blob.mk p (N.of_nat (length cs))) cs.
Proof.
  intros [Hcs _]. split; [reflexivity |].
  intros i x Hi. now apply Hcs.
Qed.

(** X1: the constructor from a C string is defined exactly when memory
    holds a null-terminated string at [str], and then the blob starts at
    [str], has the number of characters before the first zero byte as its
    length, describes those characters, and is null only for a null
    [str]: the blob of the empty string is empty, not null.  Bytes after
    the terminator play no part. *)
Theorem Blob_of_string_spec mem str :
  (forall b, Blob.of_string mem str = Some b <->
             exists cs, holds_string mem str cs /\
                        b = Blob.mk str (N.of_nat (length cs))) /\
  (forall cs, holds_string mem str cs ->
     Blob.of_string mem str = Some (Blob.mk str (N.of_nat (length cs))) /\
     Blob.views mem (Blob.mk str (N.of_nat (length cs))) cs /\
     Blob.is_null (Blob.mk str (N.of_nat (length cs))) = (str =? NULL)) /\
  (mem !! str = None -> Blob.of_string mem str = None).
Proof.
  assert (forall cs, holds_string mem str cs ->
            Blob.of_string mem str = Some (Blob.mk str (N.of_nat (length cs))))
    as Hdef.
  { intros cs H. unfold Blob.of_string. now rewrite (strlen_holds_string mem str cs H). }
  split; [| split].
  - intros b. split.
    + unfold Blob.of_string, strlen.
      destruct (strlen_from mem str (S (size mem))) as [n |] eqn:Hn; [| discriminate].
      intros [= <-]. destruct (strlen_from_sound _ _ _ _ Hn) as (cs & Hcs & ->).
      now exists cs.
    + intros (cs & Hcs & ->). now apply Hdef.
  - intros cs H. split; [now apply Hdef |].
    split; [now apply holds_string_views | reflexivity].
  - intros H. unfold Blob.of_string, strlen. cbn. now rewrite H.
Qed.

(** X2: reading a C string through its blob.  At every index the blob
    gives the character at that place, and zero from the terminator on;
    up to and including the terminator this is the byte memory holds
    there, so the sentinel and the terminator agree. *)
Theorem Blob_of_string_index mem str cs b pos :
  holds_string mem str cs ->
  Blob.of_string mem str = Some b ->
  pos < 2 ^ 32 ->
  Blob.index mem b pos = Some (nth (N.to_nat pos) cs 0) /\
  (pos <= Blob.len b -> Blob.index mem b pos = mem !! (str + pos)).
Proof.
  intros H Hb Hu.
  unfold Blob.of_string in Hb. rewrite (strlen_holds_string mem str cs H) in Hb.
  injection Hb as <-. split.
  - apply Blob_index_views; [now apply holds_string_views | exact Hu].
  - cbn. intros Hle. destruct (N.eq_dec pos (N.of_nat (length cs))) as [-> | Hne].
    + rewrite Blob_index_past_end by (cbn; lia || assumption).
      destruct H as [_ Hend]. now rewrite Hend.
    + apply Blob_index_in_range; [exact Hu | cbn; lia].
Qed.

(** The string "hi" at address 100, read at its second character and at
    its terminator. *)
Lemma Blob_of_string_index_witness :
  Blob.index (<[100 := 104]> (<[101 := 105]> (<[102 := 0]> ∅)))
             (Blob.mk 100 2) 1 = Some 105 /\
  Blob.index (<[100 := 104]> (<[101 := 105]> (<[102 := 0]> ∅)))
             (Blob.mk 100 2) 2 = Some 0.
Proof.
  assert (holds_string (<[100 := 104]> (<[101 := 105]> (<[102 := 0]> ∅)))
            100 [104; 105]) as H.
  { split; [| reflexivity].
    intros [| [| i]] x Hi; cbn in Hi; try discriminate;
      injection Hi as <-; (split; [reflexivity | discriminate]). }
  split.
  - apply (proj1 (Blob_of_string_index _ 100 [104; 105] (Blob.mk 100 2) 1
                    H eq_refl eq_refl)).
  - apply (proj1 (Blob_of_string_index _ 100 [104; 105] (Blob.mk 100 2) 2
                    H eq_refl eq_refl)).
Defined.

End CStringProperties.

(** ** What an access reads *)

Section BlobAccessProperties.

Implicit Types (mem : memory) (b : Blob.t) (pos : N).

Lemma to_unsigned_bound pos : to_unsigned pos < 2 ^ 32.
Proof. unfold to_unsigned. apply N.mod_lt. discriminate. Qed.

Lemma to_unsigned_add pos k : to_unsigned (pos + k * 2 ^ 32) = to_unsigned pos.
Proof. unfold to_unsigned. apply N.Div0.mod_add. Qed.

(** X3: an access never reads outside the region.  For every argument it
    either loads nothing and gives zero, or loads the one byte at an
    offset below the length; so its result depends on memory only
    through the bytes of the region. *)
Theorem Blob_index_reads_only_region b pos :
  ((forall mem, Blob.index mem b pos = Some 0) \/
   (to_unsigned pos < Blob.len b /\
    forall mem, Blob.index mem b pos = mem !! (Blob.ptr b + to_unsigned pos))) /\
  (forall mem mem',
     (forall off, off < Blob.len b ->
                  mem !! (Blob.ptr b + off) = mem' !! (Blob.ptr b + off)) ->
     Blob.index mem b pos = Blob.index mem' b pos).
Proof.
  unfold Blob.index. cbn zeta.
  destruct (N.ltb_spec (to_unsigned pos) (Blob.len b)) as [Hlt | Hge].
  - split.
    + right. split; [exact Hlt | reflexivity].
    + intros mem mem' Hsame. now apply Hsame.
  - split; [left; reflexivity | reflexivity].
Qed.

(** X4: the index is an [unsigned]: an argument is taken modulo 2^32.
    Arguments that differ by a multiple of 2^32 read alike, and in a
    blob longer than 2^32 bytes the index 2^32 reads the first byte:
    the bytes from offset 2^32 on are out of reach of the operator. *)
Theorem Blob_index_wraps mem b pos k :
  Blob.index mem b (pos + k * 2 ^ 32) = Blob.index mem b pos /\
  Blob.index mem b pos = Blob.index mem b (to_unsigned pos) /\
  (2 ^ 32 < Blob.len b -> Blob.index mem b (2 ^ 32) = mem !! Blob.ptr b) /\
  (forall off, 2 ^ 32 <= off -> off < Blob.len b ->
     forall q, Blob.index mem b q = Some 0 \/
               exists off', off' <> off /\
                            Blob.index mem b q = mem !! (Blob.ptr b + off')).
Proof.
  split; [| split; [| split]].
  - unfold Blob.index. cbn zeta. now rewrite to_unsigned_add.
  - unfold Blob.index. cbn zeta.
    now rewrite (to_unsigned_small (to_unsigned pos) (to_unsigned_bound pos)).
  - intros Hlen. unfold Blob.index. cbn zeta.
    change (to_unsigned (2 ^ 32)) with 0.
    destruct (N.ltb_spec 0 (Blob.len b)) as [_ | H]; [| lia].
    now rewrite N.add_0_r.
  - intros off Hoff Hlt q. unfold Blob.index. cbn zeta.
    destruct (to_unsigned q <? Blob.len b); [| now left].
    right. exists (to_unsigned q). split; [| reflexivity].
    pose proof (to_unsigned_bound q). lia.
Qed.

Lemma views_sub_blob mem p (bs : list N) (k n : nat) :
  Blob.views mem (Blob.of_region p (N.of_nat (length bs))) bs ->
  (k + n <= length bs)%nat ->
  Blob.views mem (Blob.of_region (p + N.of_nat k) (N.of_nat n)) (take n (drop k bs)).
Proof.
  intros [_ Hbytes] Hle. split.
  - cbn. rewrite length_take, length_drop. lia.
  - intros i x Hi. cbn in *.
    assert (i < n)%nat as Hin.
    { apply lookup_lt_Some in Hi. rewrite length_take in Hi. lia. }
    rewrite lookup_take_lt, lookup_drop in Hi by exact Hin.
    specialize (Hbytes _ _ Hi).
    replace (p + N.of_nat k + N.of_nat i) with (p + N.of_nat (k + i)) by lia.
    exact Hbytes.
Qed.

(** X8: a blob over part of a region.  For a region holding [bs], the
    blob built from the address [k] bytes in with length [n] describes
    the [n] bytes from place [k] on: it reads exactly those and answers
    zero past them, although memory holds further bytes there.  The
    length given to the constructor, not the memory, bounds what is
    read.  Within its length it reads what the whole region's blob reads
    [k] places further, as long as that index fits an [unsigned]. *)
Theorem Blob_sub_region mem p (bs : list N) (k n : nat) pos :
  Blob.views mem (Blob.of_region p (N.of_nat (length bs))) bs ->
  (k + n <= length bs)%nat ->
  pos < 2 ^ 32 ->
  Blob.views mem (Blob.of_region (p + N.of_nat k) (N.of_nat n))
             (take n (drop k bs)) /\
  Blob.index mem (Blob.of_region (p + N.of_nat k) (N.of_nat n)) pos
  = Some (nth (N.to_nat pos) (take n (drop k bs)) 0) /\
  (pos < N.of_nat n -> N.of_nat k + pos < 2 ^ 32 ->
   Blob.index mem (Blob.of_region (p + N.of_nat k) (N.of_nat n)) pos
   = Blob.index mem (Blob.of_region p (N.of_nat (length bs))) (N.of_nat k + pos)) /\
  (N.of_nat n <= pos ->
   Blob.index mem (Blob.of_region (p + N.of_nat k) (N.of_nat n)) pos = Some 0).
Proof.
  intros Hv Hle Hu.
  pose proof (views_sub_blob mem p bs k n Hv Hle) as Hsub.
  split; [exact Hsub |]. split; [now apply Blob_index_views |]. split.
  - intros Hlt Hsmall.
    rewrite !Blob_index_in_range; try assumption; cbn; [f_equal; lia | lia].
  - intros Hge. now apply Blob_index_past_end.
Qed.

(** The bytes 7, 8, 9 at address 100, and the blob over the last two. *)
Lemma Blob_sub_region_witness :
  Blob.index (<[100 := 7]> (<[101 := 8]> (<[102 := 9]> ∅)))
             (Blob.of_region 101 1) 0 = Some 8 /\
  Blob.index (<[100 := 7]> (<[101 := 8]> (<[102 := 9]> ∅)))
             (Blob.of_region 101 1) 1 = Some 0.
Proof.
  assert (Blob.views (<[100 := 7]> (<[101 := 8]> (<[102 := 9]> ∅)))
            (Blob.of_region 100 (N.of_nat (length [7; 8; 9]))) [7; 8; 9]) as Hv.
  { split; [reflexivity |].
    intros [| [| [| i]]] x Hi; cbn in Hi; try discriminate;
      injection Hi as <-; reflexivity. }
  split.
  - apply (proj1 (proj2 (Blob_sub_region _ 100 [7; 8; 9] 1 1 0 Hv
                           ltac:(cbn; lia) eq_refl))).
  - apply (proj1 (proj2 (Blob_sub_region _ 100 [7; 8; 9] 1 1 1 Hv
                           ltac:(cbn; lia) eq_refl))).
Defined.

End BlobAccessProperties.

(** ** The principal name as a blob *)

Section UPNBlobProperties.

Implicit Types (mem : memory) (u : UPN.t) (pos : N) (bs : list N).

(** X5: reading a principal name through [as_blob].  The blob is null
    exactly when the length is zero or the buffer pointer is null.  For
    an invalid UPN it is the null blob, which reads as zero at every
    index whatever memory holds and whatever [m_buf] is.  For a valid
    UPN whose buffer holds the name, the blob starts where [as_string]
    points, describes the name and reads it byte by byte. *)
Theorem UPN_as_blob_reads_name u :
  (Blob.is_null (UPN.as_blob u) = true <->
   UPN.m_len u = 0 \/ UPN.m_buf u = NULL) /\
  (UPN.is_valid u = false ->
     UPN.as_blob u = Blob.default /\
     forall mem pos, Blob.index mem (UPN.as_blob u) pos = Some 0) /\
  (UPN.is_valid u = true ->
     Blob.ptr (UPN.as_blob u) = UPN.as_string u /\
     forall mem bs,
       Blob.views mem (Blob.of_region (UPN.m_buf u) (UPN.m_len u)) bs ->
       Blob.views mem (UPN.as_blob u) bs /\
       forall pos, pos < 2 ^ 32 ->
         Blob.index mem (UPN.as_blob u) pos = Some (nth (N.to_nat pos) bs 0)).
Proof.
  split; [| split].
  - destruct (N.eq_dec (UPN.m_len u) 0) as [Hz | Hnz].
    + rewrite (UPN_as_blob_empty u Hz). split; [intros _; now left | reflexivity].
    + rewrite (UPN_as_blob_named u Hnz). unfold Blob.is_null. cbn.
      rewrite N.eqb_eq. split; [intros H; now right | intros [H | H]; [contradiction | exact H]].
  - intros Hv.
    assert (UPN.m_len u = 0) as Hz.
    { destruct (N.eq_dec (UPN.m_len u) 0) as [Hz | Hnz]; [exact Hz |].
      apply UPN_is_valid_iff in Hnz. congruence. }
    rewrite (UPN_as_blob_empty u Hz). split; [reflexivity |].
    intros mem pos. unfold Blob.index. cbn.
    now destruct (to_unsigned pos).
  - intros Hv. apply UPN_is_valid_iff in Hv.
    rewrite (UPN_as_blob_named u Hv). split; [reflexivity |].
    intros mem bs Hviews. split; [exact Hviews |].
    intros pos Hu. now apply Blob_index_views.
Qed.

(** X9: the two ways from a principal name to a blob.  When the buffer
    holds the name as a C string of the stored length, the blob built
    from [as_string] is the buffer with that length.  For a valid UPN it
    is the blob [as_blob] gives.  For a stored length of zero the two
    differ: the blob of the empty string is empty but null only if the
    buffer pointer is, while [as_blob] is the null blob. *)
Theorem UPN_as_string_blob mem u (cs : list N) :
  holds_string mem (UPN.m_buf u) cs ->
  UPN.m_len u = N.of_nat (length cs) ->
  Blob.of_string mem (UPN.as_string u)
  = Some (Blob.mk (UPN.m_buf u) (UPN.m_len u)) /\
  (UPN.is_valid u = true ->
     Blob.of_string mem (UPN.as_string u) = Some (UPN.as_blob u)) /\
  (UPN.is_valid u = false ->
     cs = [] /\
     Blob.is_null (UPN.as_blob u) = true /\
     Blob.is_null (Blob.mk (UPN.m_buf u) (UPN.m_len u)) = (UPN.m_buf u =? NULL) /\
     Blob.len (UPN.as_blob u) = Blob.len (Blob.mk (UPN.m_buf u) (UPN.m_len u))).
Proof.
  intros Hs Hlen.
  assert (Blob.of_string mem (UPN.as_string u)
          = Some (Blob.mk (UPN.m_buf u) (UPN.m_len u))) as Hof.
  { unfold Blob.of_string, UPN.as_string.
    rewrite (strlen_holds_string mem _ cs Hs). now rewrite Hlen. }
  split; [exact Hof |]. split.
  - intros Hv. apply UPN_is_valid_iff in Hv.
    now rewrite (UPN_as_blob_named u Hv).
  - intros Hv.
    assert (UPN.m_len u = 0) as Hz.
    { destruct (N.eq_dec (UPN.m_len u) 0) as [Hz | Hnz]; [exact Hz |].
      apply UPN_is_valid_iff in Hnz. congruence. }
    rewrite (UPN_as_blob_empty u Hz). rewrite Hz in *.
    split; [destruct cs; [reflexivity | cbn in Hlen; lia] |].
    repeat split.
Qed.

(** The name "hi" stored at address 100. *)
Lemma UPN_as_string_blob_witness :
  Blob.of_string (<[100 := 104]> (<[101 := 105]> (<[102 := 0]> ∅)))
                 (UPN.as_string (UPN.mk 100 2))
  = Some (UPN.as_blob (UPN.mk 100 2)).
Proof.
  assert (holds_string (<[100 := 104]> (<[101 := 105]> (<[102 := 0]> ∅)))
            (UPN.m_buf (UPN.mk 100 2)) [104; 105]) as H.
  { split; [| reflexivity].
    intros [| [| i]] x Hi; cbn in Hi; try discriminate;
      injection Hi as <-; (split; [reflexivity | discriminate]). }
  apply (proj1 (proj2 (UPN_as_string_blob _ (UPN.mk 100 2) [104; 105] H eq_refl))).
  reflexivity.
Defined.

End UPNBlobProperties.

(** ** Debug output *)

Section DebugProperties.

Context {Args : Type} (vformat : string -> Args -> string).

Implicit Types (t u : string) (ps : list (string * string * Args)).

Lemma string_append_assoc t u (v : string) :
  String.append (String.append t u) v = String.append t (String.append u v).
Proof.
  induction t as [| c t IH]; [reflexivity |].
  exact (f_equal (String c) IH).
Qed.

Lemma string_append_empty t : String.append t EmptyString = t.
Proof.
  induction t as [| c t IH]; [reflexivity |].
  exact (f_equal (String c) IH).
Qed.

Lemma lines_append t u :
  Debug.lines (String.append t u) = (Debug.lines t + Debug.lines u)%nat.
Proof.
  induction t as [| c t IH]; [reflexivity |].
  change (String.append (String c t) u) with (String c (String.append t u)).
  cbn [Debug.lines]. rewrite IH. lia.
Qed.

(** A print that is switched on appends its line. *)
Lemma DBUG_PRINT_on level Keyword fmt (args : Args) t :
  (2 <= level)%Z ->
  Debug.DBUG_PRINT Args vformat false level Keyword fmt args t
  = String.append t (Debug.record Args vformat (Keyword, fmt, args)).
Proof.
  intros Hl. unfold Debug.DBUG_PRINT, Debug.DBUG_PRINT_DO, Debug.debug_msg, Debug.record.
  destruct (Z.gtb_spec 2 level) as [H | _]; [lia |]. cbn [fst snd].
  now rewrite !string_append_assoc.
Qed.

(** A print that is switched off writes nothing. *)
Lemma DBUG_PRINT_off DBUG_OFF level Keyword fmt (args : Args) t :
  DBUG_OFF = true \/ (level < 2)%Z ->
  Debug.DBUG_PRINT Args vformat DBUG_OFF level Keyword fmt args t = t.
Proof.
  intros H. unfold Debug.DBUG_PRINT, Debug.DBUG_PRINT_DO.
  destruct DBUG_OFF; [reflexivity |].
  destruct H as [H | H]; [discriminate |].
  destruct (Z.gtb_spec 2 level) as [_ | H']; [reflexivity | lia].
Qed.

Lemma lines_record (p : string * string * Args) :
  Debug.lines (fst (fst p)) = 0%nat ->
  Debug.lines (vformat (snd (fst p)) (snd p)) = 0%nat ->
  Debug.lines (Debug.record Args vformat p) = 1%nat.
Proof.
  intros Hk Hm. unfold Debug.record. rewrite !lines_append, Hk, Hm. reflexivity.
Qed.

Lemma prints_off DBUG_OFF level ps t :
  DBUG_OFF = true \/ (level < 2)%Z ->
  Debug.prints Args vformat DBUG_OFF level ps t = t.
Proof.
  intros Hoff. revert t. induction ps as [| [[kw fmt] args] ps IH]; intros t;
    [reflexivity |].
  cbn [Debug.prints]. rewrite (DBUG_PRINT_off _ _ _ _ _ _ Hoff). apply IH.
Qed.

Lemma prints_on level ps t :
  (2 <= level)%Z ->
  Debug.prints Args vformat false level ps t
  = String.append t (fold_right String.append EmptyString
                       (map (Debug.record Args vformat) ps)).
Proof.
  intros Hl. revert t. induction ps as [| [[kw fmt] args] ps IH]; intros t.
  - cbn. now rewrite string_append_empty.
  - cbn [Debug.prints]. rewrite (DBUG_PRINT_on _ _ _ _ _ Hl), IH.
    cbn [map fold_right]. now rewrite string_append_assoc.
Qed.

Lemma lines_records ps :
  Forall (fun p => Debug.lines (fst (fst p)) = 0%nat /\
                   Debug.lines (vformat (snd (fst p)) (snd p)) = 0%nat) ps ->
  Debug.lines (fold_right String.append EmptyString
                 (map (Debug.record Args vformat) ps)) = length ps.
Proof.
  induction 1 as [| p ps [Hk Hm] _ IH]; [reflexivity |].
  cbn [map fold_right length]. rewrite lines_append, (lines_record p Hk Hm), IH.
  reflexivity.
Qed.

(** X7: debug printing is gated and line-oriented.  For every run of
    debug prints: in a build with DBUG_OFF, or with
    opt_auth_win_client_log below 2, it writes nothing; otherwise it
    appends one record per print, in order, each
    "winauth: <keyword>: <message>" and a newline, to what stderr held
    before.  When, besides, no keyword and no rendered message contains
    a newline, the text grows by exactly one line per print. *)
Theorem Debug_prints_gated_one_line_each DBUG_OFF level ps t :
  (DBUG_OFF = true \/ (level < 2)%Z ->
     Debug.prints Args vformat DBUG_OFF level ps t = t) /\
  (DBUG_OFF = false -> (2 <= level)%Z ->
     Debug.prints Args vformat DBUG_OFF level ps t
     = String.append t (fold_right String.append EmptyString
                          (map (Debug.record Args vformat) ps))) /\
  (DBUG_OFF = false -> (2 <= level)%Z ->
     Forall (fun p => Debug.lines (fst (fst p)) = 0%nat /\
                      Debug.lines (vformat (snd (fst p)) (snd p)) = 0%nat) ps ->
     Debug.lines (Debug.prints Args vformat DBUG_OFF level ps t)
     = (Debug.lines t + length ps)%nat).
Proof.
  split; [apply prints_off |]. split.
  - intros -> Hl. now apply prints_on.
  - intros -> Hl Hfree.
    rewrite (prints_on level ps t Hl), lines_append, (lines_records ps Hfree).
    reflexivity.
Qed.

End DebugProperties.

(** Two prints at level 2, with a rendering that shows the format as it
    is. *)
Lemma Debug_prints_gated_one_line_each_witness :
  Debug.prints unit (fun fmt _ => fmt) false 2
    [("info"%string, "Waiting for packet"%string, tt);
     ("error"%string, "no packet"%string, tt)] EmptyString
  = String.append "winauth: info: Waiting for packet"
      (String.append Debug.newline
         (String.append "winauth: error: no packet" Debug.newline)).
Proof.
  rewrite (proj1 (proj2 (Debug_prints_gated_one_line_each
                    (fun fmt (_ : unit) => fmt) false 2
                    [("info"%string, "Waiting for packet"%string, tt);
                     ("error"%string, "no packet"%string, tt)] EmptyString))
                  eq_refl ltac:(lia)).
  reflexivity.
Defined.
